(** * ai-frontend-previewer: the bulk analysis script (analyze.js)

    Shallow embedding of the two versions of the script:
    - [src/analyze.js]          : the plain version (prompt = component code);
    - [src/unnamed/part_000]    : the context-aware version (project context
                                  from package.json / README.md, file name,
                                  TypeScript flag).

    JavaScript strings are lists of UTF-16 code units ([list N]).  The
    external model ([model.generateContent]) is an arbitrary function of
    the call index and the prompt; the file system is a pair of functions
    [fs.existsSync] / [fs.readFileSync].  Console output is not modelled
    except for the events a run records in its trace. *)

From Stdlib Require Import String Ascii.
From Stdlib Require Import List NArith Arith Bool Lia.
From Stdlib Require Import DecimalString Permutation Sorted.
Import ListNotations.
Set Warnings "-register-all".


(* ------------------------------------------------------------------ *)
(** ** JavaScript strings *)

Module JsString.

Definition jsstr := list N.

(** A string literal of the source, written with Rocq's string syntax
    (every character here is ASCII, so one code unit per character). *)
Definition js (s : string) : jsstr :=
  map (fun a => N.of_nat (nat_of_ascii a)) (list_ascii_of_string s).

(** Same, writing the double quote of JSON texts as ['] (used by the
    concrete inputs of the checks). *)
Definition jq (s : string) : jsstr :=
  map (fun a => if Ascii.eqb a "'"%char then 34%N
                else N.of_nat (nat_of_ascii a)) (list_ascii_of_string s).

Definition jseqb (a b : jsstr) : bool :=
  if list_eq_dec N.eq_dec a b then true else false.

Lemma jseqb_eq (a b : jsstr) : jseqb a b = true <-> a = b.
Proof. unfold jseqb; destruct (list_eq_dec N.eq_dec a b); split; congruence. Qed.

Lemma jseqb_refl (a : jsstr) : jseqb a a = true.
Proof. apply jseqb_eq; reflexivity. Qed.

Lemma jseqb_neq (a b : jsstr) : a <> b -> jseqb a b = false.
Proof. intro H; unfold jseqb; destruct (list_eq_dec N.eq_dec a b); congruence. Qed.

(** WhiteSpace and LineTerminator code units, as removed by
    [String.prototype.trim]. *)
Definition is_js_space (c : N) : bool :=
  match c with
  | 9 | 10 | 11 | 12 | 13 | 32 | 160 | 5760 | 8232 | 8233 | 8239 | 8287
  | 12288 | 65279 => true
  | _ => (8192 <=? c) && (c <=? 8202)
  end%N.

Fixpoint trim_start (s : jsstr) : jsstr :=
  match s with
  | c :: r => if is_js_space c then trim_start r else s
  | [] => []
  end.

(** [s.trim()] *)
Definition js_trim (s : jsstr) : jsstr := rev (trim_start (rev (trim_start s))).

(** [s.endsWith(suffix)] *)
Definition ends_with (suffix s : jsstr) : bool :=
  (length suffix <=? length s)%nat
  && jseqb (skipn (length s - length suffix) s) suffix.

Fixpoint drop_slashes (s : jsstr) : jsstr :=
  match s with
  | 47%N :: r => drop_slashes r
  | _ => s
  end.

Fixpoint take_until_slash (s : jsstr) : jsstr :=
  match s with
  | 47%N :: _ => []
  | c :: r => c :: take_until_slash r
  | [] => []
  end.

(** [path.basename(p)] (POSIX): trailing separators are dropped, then the
    part after the last ['/'] is kept. *)
Definition basename (p : jsstr) : jsstr :=
  rev (take_until_slash (drop_slashes (rev p))).

End JsString.

(* ------------------------------------------------------------------ *)
(** ** JSON values and [JSON.parse] *)

Module Json.
Import JsString.

(** A parsed JSON value.  Numbers keep their source lexeme (their IEEE
    double value is not modelled); an object keeps its own properties in
    creation order, as the JS object built by [JSON.parse] does. *)
Inductive json : Type :=
| JNull
| JBool (b : bool)
| JNum (lexeme : jsstr)
| JStr (s : jsstr)
| JArr (items : list json)
| JObj (members : list (jsstr * json)).

Definition has_key {A} (k : jsstr) (m : list (jsstr * A)) : bool :=
  existsb (fun e => jseqb (fst e) k) m.

Fixpoint lookup {A} (k : jsstr) (m : list (jsstr * A)) : option A :=
  match m with
  | [] => None
  | (k', v) :: r => if jseqb k' k then Some v else lookup k r
  end.

(** [CreateDataProperty(O, k, v)] on an ordinary object: an existing own
    property keeps its place and takes the new value, a new one goes last. *)
Fixpoint define_own {A} (m : list (jsstr * A)) (k : jsstr) (v : A)
  : list (jsstr * A) :=
  match m with
  | [] => [(k, v)]
  | (k', v') :: r =>
      if jseqb k' k then (k', v) :: r else (k', v') :: define_own r k v
  end.

(** JSON whitespace: tab, line feed, carriage return, space. *)
Definition is_json_ws (c : N) : bool :=
  match c with 9 | 10 | 13 | 32 => true | _ => false end%N.

Fixpoint skip_ws (s : jsstr) : jsstr :=
  match s with
  | c :: r => if is_json_ws c then skip_ws r else s
  | [] => []
  end.

Definition is_digit (c : N) : bool := ((48 <=? c) && (c <=? 57))%N.

Definition hex_val (c : N) : option N :=
  if ((48 <=? c) && (c <=? 57))%N then Some (c - 48)%N
  else if ((65 <=? c) && (c <=? 70))%N then Some (c - 55)%N
  else if ((97 <=? c) && (c <=? 102))%N then Some (c - 87)%N
  else None.

Definition hex4 (a b c d : N) : option N :=
  match hex_val a, hex_val b, hex_val c, hex_val d with
  | Some a, Some b, Some c, Some d => Some (((a * 16 + b) * 16 + c) * 16 + d)%N
  | _, _, _, _ => None
  end.

(** The body of a JSON string, after its opening quote: the code units of
    the value and the text after the closing quote. *)
Fixpoint pstring (s : jsstr) : option (jsstr * jsstr) :=
  match s with
  | [] => None
  | 34%N :: r => Some ([], r)
  | 92%N :: e :: r =>
      let k := fun c => match pstring r with
                        | Some (x, r') => Some (c :: x, r')
                        | None => None
                        end in
      match e with
      | 34 => k 34 | 92 => k 92 | 47 => k 47 | 98 => k 8 | 102 => k 12
      | 110 => k 10 | 114 => k 13 | 116 => k 9
      | 117 =>
          match r with
          | a :: b :: c :: d :: r0 =>
              match hex4 a b c d, pstring r0 with
              | Some u, Some (x, r') => Some (u :: x, r')
              | _, _ => None
              end
          | _ => None
          end
      | _ => None
      end%N
  | 92%N :: [] => None
  | c :: r =>
      if (c <? 32)%N then None
      else match pstring r with
           | Some (x, r') => Some (c :: x, r')
           | None => None
           end
  end.

Fixpoint digits (s : jsstr) : jsstr * jsstr :=
  match s with
  | c :: r => if is_digit c then let (d, r') := digits r in (c :: d, r')
              else ([], s)
  | [] => ([], [])
  end.

Definition digits1 (s : jsstr) : option (jsstr * jsstr) :=
  match digits s with
  | ([], _) => None
  | p => Some p
  end.

(** [-? (0 | [1-9][0-9]* ) (. [0-9]+)? ([eE] [+-]? [0-9]+)?], as a lexeme. *)
Definition pnumber (s : jsstr) : option (jsstr * jsstr) :=
  let '(sign, s1) := match s with 45%N :: r => ([45%N], r) | _ => ([], s) end in
  let int := match s1 with
             | 48%N :: r => Some ([48%N], r)
             | c :: r => if ((49 <=? c) && (c <=? 57))%N
                         then let (d, r') := digits r in Some (c :: d, r')
                         else None
             | [] => None
             end in
  match int with
  | None => None
  | Some (i, s2) =>
      let frac := match s2 with
                  | 46%N :: r => match digits1 r with
                                 | Some (d, r') => Some (46%N :: d, r')
                                 | None => None
                                 end
                  | _ => Some ([], s2)
                  end in
      match frac with
      | None => None
      | Some (f, s3) =>
          let exp := match s3 with
                     | e :: r =>
                         if (N.eqb e 101 || N.eqb e 69)%N then
                           let '(sg, r1) := match r with
                                            | 43%N :: r1 => ([43%N], r1)
                                            | 45%N :: r1 => ([45%N], r1)
                                            | _ => ([], r)
                                            end in
                           match digits1 r1 with
                           | Some (d, r') => Some (e :: sg ++ d, r')
                           | None => None
                           end
                         else Some ([], s3)
                     | [] => Some ([], s3)
                     end in
          match exp with
          | None => None
          | Some (x, s4) => Some (sign ++ i ++ f ++ x, s4)
          end
      end
  end.

(** Recursive descent; [fuel] bounds the call depth.  Along any chain of
    calls at most two calls are made per code unit consumed, so the fuel
    [2 * length + 2] given by [JSON_parse] is never exhausted. *)
Fixpoint pvalue (fuel : nat) (s : jsstr) {struct fuel} : option (json * jsstr) :=
  match fuel with
  | O => None
  | S f =>
      match skip_ws s with
      | 123%N :: r =>
          match skip_ws r with
          | 125%N :: r' => Some (JObj [], r')
          | _ => pmembers f r []
          end
      | 91%N :: r =>
          match skip_ws r with
          | 93%N :: r' => Some (JArr [], r')
          | _ => pelems f r []
          end
      | 34%N :: r =>
          match pstring r with
          | Some (x, r') => Some (JStr x, r')
          | None => None
          end
      | 116%N :: 114%N :: 117%N :: 101%N :: r => Some (JBool true, r)
      | 102%N :: 97%N :: 108%N :: 115%N :: 101%N :: r => Some (JBool false, r)
      | 110%N :: 117%N :: 108%N :: 108%N :: r => Some (JNull, r)
      | s' =>
          match pnumber s' with
          | Some (x, r') => Some (JNum x, r')
          | None => None
          end
      end
  end
with pelems (fuel : nat) (s : jsstr) (acc : list json) {struct fuel}
  : option (json * jsstr) :=
  match fuel with
  | O => None
  | S f =>
      match pvalue f s with
      | Some (v, r) =>
          match skip_ws r with
          | 44%N :: r' => pelems f r' (acc ++ [v])
          | 93%N :: r' => Some (JArr (acc ++ [v]), r')
          | _ => None
          end
      | None => None
      end
  end
with pmembers (fuel : nat) (s : jsstr) (acc : list (jsstr * json)) {struct fuel}
  : option (json * jsstr) :=
  match fuel with
  | O => None
  | S f =>
      match skip_ws s with
      | 34%N :: r =>
          match pstring r with
          | Some (k, r1) =>
              match skip_ws r1 with
              | 58%N :: r2 =>
                  match pvalue f r2 with
                  | Some (v, r3) =>
                      let acc' := define_own acc k v in
                      match skip_ws r3 with
                      | 44%N :: r4 => pmembers f r4 acc'
                      | 125%N :: r4 => Some (JObj acc', r4)
                      | _ => None
                      end
                  | None => None
                  end
              | _ => None
              end
          | None => None
          end
      | _ => None
      end
  end.

(** [JSON.parse(text)]: [None] is a thrown [SyntaxError]. *)
Definition JSON_parse (text : jsstr) : option json :=
  match pvalue (2 * length text + 2) text with
  | Some (v, r) => match skip_ws r with [] => Some v | _ => None end
  | None => None
  end.

End Json.

(* ------------------------------------------------------------------ *)
(** ** Response normalisation (line 88 / line 47) *)

Module Normalizer.
Import JsString Json.

Fixpoint starts_with (pat s : jsstr) : bool :=
  match pat, s with
  | [], _ => true
  | p :: pr, c :: r => N.eqb p c && starts_with pr r
  | _ :: _, [] => false
  end.

(** ["```"] and ["```json"] *)
Definition ticks : jsstr := [96; 96; 96]%N.
Definition json_fence : jsstr := ticks ++ [106; 115; 111; 110]%N.

(** [.replace(/```json/g, '')]: scanning left to right, an occurrence
    starting here is dropped and the scan resumes after it. *)
Fixpoint strip_json_fence (s : jsstr) : jsstr :=
  match s with
  | a :: ((_ :: _ :: _ :: _ :: _ :: _ :: r) as t) =>
      if starts_with json_fence (a :: t) then strip_json_fence r
      else a :: strip_json_fence t
  | a :: t => a :: strip_json_fence t
  | [] => []
  end.

(** [.replace(/```/g, '')] *)
Fixpoint strip_ticks (s : jsstr) : jsstr :=
  match s with
  | a :: ((_ :: _ :: r) as t) =>
      if starts_with ticks (a :: t) then strip_ticks r
      else a :: strip_ticks t
  | a :: t => a :: strip_ticks t
  | [] => []
  end.

Definition strip_fences (raw : jsstr) : jsstr :=
  strip_ticks (strip_json_fence raw).

(** [JSON.parse(raw.replace(/```json/g, '').replace(/```/g, '').trim())];
    [None] is the exception caught by the per-file [catch]. *)
Definition normalize (raw : jsstr) : option json :=
  JSON_parse (js_trim (strip_fences raw)).

End Normalizer.

(* ------------------------------------------------------------------ *)
(** ** Plain JS objects used as maps ([masterAnalysis]) *)

Module JsObject.
Import JsString Json.

(** Value of a canonical decimal string ([0] or no leading zero). *)
Fixpoint dec_value (acc : N) (s : jsstr) : option N :=
  match s with
  | [] => Some acc
  | c :: r => if is_digit c then dec_value (acc * 10 + (c - 48))%N r else None
  end.

(** The array index of a property key: a canonical numeric string whose
    value is at most [2^32 - 2]. *)
Definition array_index (k : jsstr) : option N :=
  match k with
  | [48%N] => Some 0%N
  | c :: _ =>
      if ((49 <=? c) && (c <=? 57))%N then
        match dec_value 0 k with
        | Some n => if (n <=? 4294967294)%N then Some n else None
        | None => None
        end
      else None
  | [] => None
  end.

Definition is_array_index (k : jsstr) : bool :=
  match array_index k with Some _ => true | None => false end.

Definition idx_of (k : jsstr) : N :=
  match array_index k with Some n => n | None => 0%N end.

Fixpoint insert_by_index {A} (e : jsstr * A) (l : list (jsstr * A)) :=
  match l with
  | [] => [e]
  | e' :: r => if (idx_of (fst e) <=? idx_of (fst e'))%N then e :: l
               else e' :: insert_by_index e r
  end.

Fixpoint sort_by_index {A} (l : list (jsstr * A)) : list (jsstr * A) :=
  match l with
  | [] => []
  | e :: r => insert_by_index e (sort_by_index r)
  end.

(** [OrdinaryOwnPropertyKeys]: array-index keys in ascending numeric
    order, then the other string keys in creation order.  This is the
    order [JSON.stringify] and [Object.keys] enumerate. *)
Definition own_order {A} (m : list (jsstr * A)) : list (jsstr * A) :=
  sort_by_index (filter (fun e => is_array_index (fst e)) m)
  ++ filter (fun e => negb (is_array_index (fst e))) m.

(** The [[Prototype]] of the accumulator: initially [Object.prototype];
    assigning to the key ["__proto__"] may replace it. *)
Inductive proto : Type :=
| ObjectPrototype
| NullPrototype
| ValuePrototype (v : json).

Record jsobj : Type := mkobj { own : list (jsstr * json); proto_of : proto }.

Definition empty_object : jsobj := mkobj [] ObjectPrototype.

Definition proto_key : jsstr := js "__proto__".

(** Does a lookup of ["__proto__"] that misses the own properties reach the
    accessor of [Object.prototype]?  A parsed object may carry an own data
    property named ["__proto__"], which shadows it. *)
Definition reaches_proto_accessor (p : proto) : bool :=
  match p with
  | ObjectPrototype => true
  | NullPrototype => false
  | ValuePrototype (JObj m) => negb (has_key proto_key m)
  | ValuePrototype _ => true
  end.

(** [o[k] = v] ([OrdinarySet]).  Every property on the prototype chain is
    a writable data property except [Object.prototype.__proto__], whose
    setter replaces the prototype when [v] is an object or [null] and does
    nothing otherwise. *)
Definition js_set (o : jsobj) (k : jsstr) (v : json) : jsobj :=
  if negb (has_key k (own o)) && jseqb k proto_key
     && reaches_proto_accessor (proto_of o) then
    match v with
    | JObj _ | JArr _ => mkobj (own o) (ValuePrototype v)
    | JNull => mkobj (own o) NullPrototype
    | _ => o
    end
  else mkobj (define_own (own o) k v) (proto_of o).

(** The entries [JSON.stringify(o)] writes, in order. *)
Definition own_entries (o : jsobj) : list (jsstr * json) := own_order (own o).

End JsObject.

(* ------------------------------------------------------------------ *)
(** ** The per-file loop of [analyzeAll] *)

Module Batch.
Import JsString Json Normalizer JsObject.

(** [fs.existsSync] and [fs.readFileSync(p, 'utf8')] ([None]: it throws,
    e.g. on a directory). *)
Record fs_model : Type := {
  fs_exists : jsstr -> bool;
  fs_read : jsstr -> option jsstr
}.

(** What [await model.generateContent(prompt)] followed by
    [result.response.text()] gives: a text, or a thrown error. *)
Inductive reply : Type :=
| Reply (text : jsstr)
| Rejected (message : jsstr).

(** Observable steps of a run. *)
Inductive event : Type :=
| ENoFiles                  (* "No files provided to analyze." *)
| EContextWarning           (* "Could not read project context files." *)
| ECall (path : jsstr)      (* model.generateContent for this file *)
| ESleep (ms : N)           (* await sleep(ms) *)
| EFailed (path : jsstr)    (* the catch branch for this file *)
| EWriteArtifact.           (* fs.writeFileSync(OUTPUT_PATH, ...) *)

Record run_state : Type := mkstate { master : jsobj; calls : nat }.

Definition init_state : run_state := mkstate empty_object 0.

(** [{ props: {}, wrappers: {} }] *)
Definition fallback : json := JObj [(js "props", JObj []); (js "wrappers", JObj [])].

Definition record (st : run_state) (path : jsstr) (v : json) : run_state :=
  mkstate (js_set (master st) path v) (calls st).

Section Loop.
Variable P : Type.
Variable fs : fs_model.
(** the prompt built from the file path and its code *)
Variable mk_prompt : jsstr -> jsstr -> P.
(** the model: the [n]-th call of the run with its prompt *)
Variable gen : nat -> P -> reply.
(** [FILES.length] *)
Variable nfiles : nat.

(** One iteration of [for (const filePath of FILES)]. *)
Definition analyze_file (st : run_state) (path : jsstr) : run_state * list event :=
  if negb (fs_exists fs path) then (st, [])
  else
    match fs_read fs path with
    | None => (record st path fallback, [EFailed path])
    | Some code =>
        let st1 := mkstate (master st) (S (calls st)) in
        match gen (calls st) (mk_prompt path code) with
        | Rejected _ => (record st1 path fallback, [ECall path; EFailed path])
        | Reply raw =>
            match normalize raw with
            | None => (record st1 path fallback, [ECall path; EFailed path])
            | Some v =>
                (record st1 path v,
                 ECall path :: (if (1 <? nfiles)%nat then [ESleep 4000] else []))
            end
        end
    end.

Fixpoint analyze_loop (st : run_state) (files : list jsstr) : run_state * list event :=
  match files with
  | [] => (st, [])
  | path :: rest =>
      let (st1, ev1) := analyze_file st path in
      let (st2, ev2) := analyze_loop st1 rest in
      (st2, ev1 ++ ev2)
  end.

End Loop.

Arguments analyze_file {P} fs mk_prompt gen nfiles st path.
Arguments analyze_loop {P} fs mk_prompt gen nfiles st files.

(** How a run of the script ends. *)
Inductive run_result : Type :=
| Exited (code : nat) (trace : list event)
| Finished (artifact : list (jsstr * json)) (trace : list event).

(** [src/analyze.js]: the prompt only interpolates the code. *)
Definition main_v1 (fs : fs_model) (gen : nat -> jsstr -> reply)
  (FILES : list jsstr) : run_result :=
  if (length FILES =? 0)%nat then Exited 1 [ENoFiles]
  else
    let (st, tr) := analyze_loop fs (fun _ code => code) gen (length FILES)
                      init_state FILES in
    Finished (own_entries (master st)) (tr ++ [EWriteArtifact]).

End Batch.

(* ------------------------------------------------------------------ *)
(** ** Project context and the context-aware script (part_000) *)

Module Context.
Import JsString Json JsObject Batch.

(** The IEEE double behind a JSON number lexeme: its [ToString] and its
    truthiness.  Floating point is not modelled; the context builder takes
    them as a parameter. *)
Record number_semantics : Type := {
  num_to_string : jsstr -> jsstr;
  num_truthy : jsstr -> bool
}.

(** The statements at the top level of the script thread the mutable
    [projectContext] and may throw: a state monad over the context with an
    exception ([None]) that keeps the state reached so far. *)
Definition ctxM (A : Type) : Type := jsstr -> option A * jsstr.

Definition ret {A} (a : A) : ctxM A := fun c => (Some a, c).
Definition bind {A B} (m : ctxM A) (k : A -> ctxM B) : ctxM B :=
  fun c => match m c with
           | (Some a, c') => k a c'
           | (None, c') => (None, c')
           end.
Definition throw {A} : ctxM A := fun c => (None, c).
Definition get : ctxM jsstr := fun c => (Some c, c).
Definition put (c' : jsstr) : ctxM unit := fun _ => (Some tt, c').
Definition lift {A} (o : option A) : ctxM A :=
  match o with Some a => ret a | None => throw end.

Local Notation "x <- m ;; k" := (bind m (fun x => k))
  (at level 61, m at next level, right associativity).

Definition dq : jsstr := [34%N].
Definition nl : jsstr := [10%N].

Definition N_to_dec (n : N) : jsstr := js (NilEmpty.string_of_uint (N.to_uint n)).

Fixpoint join (sep : jsstr) (l : list jsstr) : jsstr :=
  match l with
  | [] => []
  | [x] => x
  | x :: r => x ++ sep ++ join sep r
  end.

Section Semantics.
Variable ns : number_semantics.

Definition truthy (v : json) : bool :=
  match v with
  | JNull => false
  | JBool b => b
  | JNum l => num_truthy ns l
  | JStr s => negb (jseqb s [])
  | JArr _ | JObj _ => true
  end.

(** [v.key] for the keys ["name"], ["description"], ["dependencies"]:
    [None] is the [TypeError] on [null], [Some None] is [undefined] (no
    prototype of a JSON value has these properties). *)
Definition get_prop (v : json) (key : jsstr) : option (option json) :=
  match v with
  | JNull => None
  | JObj m => Some (lookup key m)
  | _ => Some None
  end.

(** [a || b] where [a] may be [undefined] *)
Definition js_or (a : option json) (b : json) : json :=
  match a with Some x => if truthy x then x else b | None => b end.

(** [ToString] as used by a template substitution; [None] is a
    [TypeError]: an object with an own (non-callable) [toString] has no
    primitive value. Arrays are joined with [","], [null] items as the empty string. *)
Fixpoint to_string (v : json) : option jsstr :=
  match v with
  | JNull => Some (js "null")
  | JBool true => Some (js "true")
  | JBool false => Some (js "false")
  | JNum l => Some (num_to_string ns l)
  | JStr s => Some s
  | JArr items =>
      let fix go (l : list json) : option (list jsstr) :=
        match l with
        | [] => Some []
        | x :: r =>
            match (match x with JNull => Some [] | _ => to_string x end), go r with
            | Some a, Some b => Some (a :: b)
            | _, _ => None
            end
        end in
      match go items with Some l => Some (join (js ",") l) | None => None end
  | JObj m => if has_key (js "toString") m then None else Some (js "[object Object]")
  end.

Definition indices (n : nat) : list jsstr :=
  map (fun i => N_to_dec (N.of_nat i)) (seq 0 n).

(** [Object.keys(v)] for a truthy JSON value. *)
Definition keys_of (v : json) : list jsstr :=
  match v with
  | JObj m => map fst (own_order m)
  | JArr l => indices (length l)
  | JStr s => indices (length s)
  | _ => []
  end.

Definition placeholder : jsstr := js "Unknown React Application".
Definition package_json : jsstr := js "package.json".
Definition readme_md : jsstr := js "README.md".
Definition readme_limit : nat := 3000.

Variable fs : fs_model.

(** Step A: package.json (lines 21-26). *)
Definition read_package : ctxM unit :=
  if fs_exists fs package_json then
    txt <- lift (fs_read fs package_json) ;;
    pkg <- lift (JSON_parse txt) ;;
    name <- lift (get_prop pkg (js "name")) ;;
    name_s <- lift (to_string (js_or name (JStr (js "Unnamed")))) ;;
    descr <- lift (get_prop pkg (js "description")) ;;
    descr_s <- lift (to_string (js_or descr (JStr []))) ;;
    _ <- put (js "Project Name: " ++ dq ++ name_s ++ dq ++ nl
              ++ js "Description: " ++ dq ++ descr_s ++ dq) ;;
    deps_v <- lift (get_prop pkg (js "dependencies")) ;;
    let deps := join (js ", ") (keys_of (js_or deps_v (JObj []))) in
    ctx <- get ;;
    put (ctx ++ nl ++ js "Key Libraries: " ++ deps)
  else ret tt.

(** Step B: README.md (lines 29-33). *)
Definition read_readme : ctxM unit :=
  if fs_exists fs readme_md then
    readme <- lift (fs_read fs readme_md) ;;
    ctx <- get ;;
    put (ctx ++ nl ++ nl ++ js "README Summary:" ++ nl
         ++ firstn readme_limit readme ++ js "...")
  else ret tt.

(** Lines 17-36: the [try] block run from the placeholder, its [catch]
    keeping the context reached so far.  The boolean says whether the
    warning was printed. *)
Definition build_context : jsstr * bool :=
  match (_ <- read_package ;; read_readme) placeholder with
  | (Some _, c) => (c, false)
  | (None, c) => (c, true)
  end.

End Semantics.

(** The values the context-aware prompt interpolates (its fixed text is
    the same for every file). *)
Record prompt_v2 : Type := {
  pr_context : jsstr;
  pr_filename : jsstr;
  pr_is_ts : bool;
  pr_code : jsstr
}.

(** [src/unnamed/part_000]. *)
Definition main_v2 (ns : number_semantics) (fs : fs_model)
  (gen : nat -> prompt_v2 -> reply) (FILES : list jsstr) : run_result :=
  if (length FILES =? 0)%nat then Exited 1 [ENoFiles]
  else
    let (projectContext, warned) := build_context ns fs in
    let mk := fun filePath code =>
      {| pr_context := projectContext;
         pr_filename := basename filePath;
         pr_is_ts := ends_with (js ".tsx") filePath;
         pr_code := code |} in
    let (st, tr) := analyze_loop fs mk gen (length FILES) init_state FILES in
    Finished (own_entries (master st))
      ((if warned then [EContextWarning] else []) ++ tr ++ [EWriteArtifact]).

End Context.

(* ================================================================== *)
(** * Facts about the normaliser *)

Module NormalizerFacts.
Import JsString Json Normalizer.

(** Does [pat] occur anywhere in [s]? *)
Fixpoint occurs (pat s : jsstr) : bool :=
  match s with
  | [] => starts_with pat []
  | c :: r => starts_with pat (c :: r) || occurs pat r
  end.

Lemma strip_ticks_cons (a : N) (t : jsstr) :
  strip_ticks (a :: t) =
  if starts_with ticks (a :: t) then strip_ticks (skipn 2 t)
  else a :: strip_ticks t.
Proof.
  destruct t as [|b [|c r]]; [| |reflexivity];
    cbn - [N.eqb]; rewrite ?andb_false_r; reflexivity.
Qed.

Lemma strip_json_fence_cons (a : N) (t : jsstr) :
  strip_json_fence (a :: t) =
  if starts_with json_fence (a :: t) then strip_json_fence (skipn 6 t)
  else a :: strip_json_fence t.
Proof.
  destruct t as [|b1 [|b2 [|b3 [|b4 [|b5 [|b6 r]]]]]]; [| | | | | |reflexivity];
    cbn - [N.eqb]; rewrite ?andb_false_r; reflexivity.
Qed.

Lemma starts_with_app (p q s : jsstr) :
  starts_with (p ++ q) s = true -> starts_with p s = true.
Proof.
  revert s; induction p as [|x p IH]; intros s H; [reflexivity|].
  destruct s as [|c r]; cbn in *; [discriminate|].
  apply andb_prop in H as [H1 H2]; rewrite H1; cbn; auto.
Qed.

Lemma starts_with_json_ticks (s : jsstr) :
  starts_with json_fence s = true -> starts_with ticks s = true.
Proof. apply (starts_with_app ticks (js "json")). Qed.

Lemma occurs_json_ticks (s : jsstr) :
  occurs ticks s = false -> occurs json_fence s = false.
Proof.
  induction s as [|c r IH]; intro H; [reflexivity|].
  cbn [occurs] in *; apply orb_false_iff in H as [H1 H2].
  rewrite (IH H2), orb_false_r.
  destruct (starts_with json_fence (c :: r)) eqn:E; [|reflexivity].
  rewrite (starts_with_json_ticks _ E) in H1; discriminate.
Qed.

Lemma strip_ticks_id (s : jsstr) : occurs ticks s = false -> strip_ticks s = s.
Proof.
  induction s as [|c r IH]; intro H; [reflexivity|].
  cbn [occurs] in H; apply orb_false_iff in H as [H1 H2].
  rewrite strip_ticks_cons, H1, (IH H2); reflexivity.
Qed.

Lemma strip_json_fence_id (s : jsstr) :
  occurs json_fence s = false -> strip_json_fence s = s.
Proof.
  induction s as [|c r IH]; intro H; [reflexivity|].
  cbn [occurs] in H; apply orb_false_iff in H as [H1 H2].
  rewrite strip_json_fence_cons, H1, (IH H2); reflexivity.
Qed.

(** A marker starts with a backtick. *)
Lemma starts_not_tick (pat : jsstr) (c : N) (r : jsstr) :
  hd_error pat = Some 96%N -> c <> 96%N -> starts_with pat (c :: r) = false.
Proof.
  destruct pat as [|x p]; intros Hp Hc; [discriminate|].
  injection Hp as ->; cbn - [N.eqb]; replace (N.eqb 96 c) with false; [reflexivity|].
  symmetry; apply N.eqb_neq; congruence.
Qed.

Lemma strip_ticks_tick_free (v w : jsstr) :
  ~ In 96%N v -> strip_ticks (v ++ w) = v ++ strip_ticks w.
Proof.
  induction v as [|c r IH]; intro H; [reflexivity|].
  cbn [app]; rewrite strip_ticks_cons, starts_not_tick by
    (reflexivity || (intro; apply H; left; congruence)).
  rewrite IH; [reflexivity|]; intro; apply H; right; assumption.
Qed.

Lemma strip_json_fence_tick_free (v w : jsstr) :
  ~ In 96%N v -> strip_json_fence (v ++ w) = v ++ strip_json_fence w.
Proof.
  induction v as [|c r IH]; intro H; [reflexivity|].
  cbn [app]; rewrite strip_json_fence_cons, starts_not_tick by
    (reflexivity || (intro; apply H; left; congruence)).
  rewrite IH; [reflexivity|]; intro; apply H; right; assumption.
Qed.

Definition json_word : jsstr := [106; 115; 111; 110]%N.

Lemma json_word_tick_free : ~ In 96%N json_word.
Proof. intro H; repeat (destruct H as [H|H]; [discriminate|]); exact H. Qed.

Lemma starts_app_tick (p u w : jsstr) :
  ~ In 96%N p -> starts_with p u = false -> starts_with p (u ++ 96%N :: w) = false.
Proof.
  revert p; induction u as [|x u IH]; intros p Hp Hs.
  - destruct p as [|y p]; [discriminate|]; cbn - [N.eqb].
    replace (N.eqb y 96) with false; [reflexivity|].
    symmetry; apply N.eqb_neq; intros ->; apply Hp; left; reflexivity.
  - destruct p as [|y p]; [discriminate|]; cbn - [N.eqb] in *.
    destruct (N.eqb y x); [|reflexivity]; cbn in *.
    apply IH; [intro; apply Hp; right; assumption | assumption].
Qed.

Lemma strip_ticks_markers : strip_ticks ticks = [].
Proof. reflexivity. Qed.

Lemma strip_json_fence_ticks : strip_json_fence ticks = ticks.
Proof. reflexivity. Qed.

Lemma occurs_fence_tick_free (u : jsstr) :
  ~ In 96%N u -> occurs json_fence (u ++ ticks) = false.
Proof.
  induction u as [|x u IH]; intro Hu; [reflexivity|].
  rewrite <- app_comm_cons; cbn [occurs].
  rewrite starts_not_tick, IH
    by (reflexivity || (intro; apply Hu; (left; congruence) || (right; assumption))).
  reflexivity.
Qed.

(** A completion fenced as [```u```] around a backtick-free [u]. *)
Lemma strip_fences_fenced (u : jsstr) :
  ~ In 96%N u ->
  strip_fences (ticks ++ u ++ ticks) =
  if starts_with json_word u then skipn 4 u else u.
Proof.
  intro Hu; unfold strip_fences.
  destruct (starts_with json_word u) eqn:Ej.
  - destruct u as [|x1 [|x2 [|x3 [|x4 u']]]]; cbn - [N.eqb] in Ej; try discriminate;
      try (rewrite !andb_false_r in Ej; discriminate).
    apply andb_prop in Ej as [E1 Ej]; apply andb_prop in Ej as [E2 Ej];
    apply andb_prop in Ej as [E3 Ej]; apply andb_prop in Ej as [E4 _].
    apply N.eqb_eq in E1, E2, E3, E4; subst.
    assert (Hu' : ~ In 96%N u') by (intro; apply Hu; do 4 right; assumption).
    change (ticks ++ (106 :: 115 :: 111 :: 110 :: u') ++ ticks)%N
      with (96 :: 96 :: 96 :: 106 :: 115 :: 111 :: 110 :: (u' ++ ticks))%N.
    rewrite strip_json_fence_cons; cbn - [strip_json_fence strip_ticks].
    rewrite strip_json_fence_tick_free, strip_json_fence_ticks,
      strip_ticks_tick_free, strip_ticks_markers, app_nil_r by assumption.
    reflexivity.
  - assert (Hw : starts_with json_word (u ++ ticks) = false)
      by (apply starts_app_tick; [apply json_word_tick_free | assumption]).
    assert (Hs : strip_json_fence (ticks ++ u ++ ticks) = ticks ++ u ++ ticks).
    { apply strip_json_fence_id.
      change (ticks ++ u ++ ticks) with (96 :: 96 :: 96 :: (u ++ ticks))%N.
      cbn [occurs]; rewrite occurs_fence_tick_free by assumption.
      replace (starts_with json_fence (96 :: 96 :: 96 :: u ++ ticks)%N)
        with (starts_with json_word (u ++ ticks)) by reflexivity.
      replace (starts_with json_fence (96 :: 96 :: u ++ ticks)%N)
        with (starts_with (96 :: json_word) (u ++ ticks))%N by reflexivity.
      replace (starts_with json_fence (96 :: u ++ ticks)%N)
        with (starts_with (96 :: 96 :: json_word) (u ++ ticks))%N by reflexivity.
      rewrite Hw.
      destruct u as [|x u']; [reflexivity|].
      rewrite <- app_comm_cons, !starts_not_tick
        by (reflexivity || (intro; apply Hu; left; congruence)).
      reflexivity. }
    rewrite Hs.
    change (ticks ++ u ++ ticks) with (96 :: 96 :: 96 :: (u ++ ticks))%N.
    rewrite strip_ticks_cons; cbn - [strip_ticks].
    rewrite strip_ticks_tick_free, strip_ticks_markers, app_nil_r by assumption.
    reflexivity.
Qed.

(** After [strip_ticks], a text that did not start with two backticks
    still does not. *)
Lemma strip_ticks_head (t : jsstr) :
  starts_with [96; 96]%N t = false -> starts_with [96; 96]%N (strip_ticks t) = false.
Proof.
  intro H; destruct t as [|b t]; [reflexivity|].
  destruct (N.eq_dec b 96) as [->|Hb].
  - destruct t as [|c t]; [reflexivity|].
    assert (Hc : c <> 96%N).
    { intros ->; cbn in H; discriminate. }
    rewrite strip_ticks_cons.
    replace (starts_with ticks (96 :: c :: t)%N) with (starts_with [96; 96]%N (c :: t))
      by reflexivity.
    rewrite starts_not_tick by (reflexivity || congruence).
    rewrite strip_ticks_cons, (starts_not_tick ticks c t) by (reflexivity || congruence).
    cbn - [N.eqb]; replace (N.eqb 96 c) with false; [apply andb_false_r|].
    symmetry; apply N.eqb_neq; congruence.
  - rewrite strip_ticks_cons, starts_not_tick by (reflexivity || congruence).
    apply starts_not_tick; [reflexivity | congruence].
Qed.

Lemma strip_ticks_no_ticks (s : jsstr) : occurs ticks (strip_ticks s) = false.
Proof.
  remember (length s) as n eqn:En.
  revert s En; induction n as [n IH] using lt_wf_ind; intros s En.
  destruct s as [|a t]; [reflexivity|].
  rewrite strip_ticks_cons.
  destruct (starts_with ticks (a :: t)) eqn:Es.
  - apply (IH (length (skipn 2 t))); [|reflexivity].
    rewrite length_skipn; cbn in En; lia.
  - cbn [occurs]; rewrite (IH (length t)) by (cbn in En; lia).
    rewrite orb_false_r.
    destruct (N.eq_dec a 96) as [->|Ha].
    + replace (starts_with ticks (96 :: strip_ticks t)%N)
        with (starts_with [96; 96]%N (strip_ticks t)) by reflexivity.
      apply strip_ticks_head; exact Es.
    + apply starts_not_tick; [reflexivity | exact Ha].
Qed.

End NormalizerFacts.

(* ================================================================== *)
(** * Facts about the accumulator object *)

Module ObjectFacts.
Import JsString Json JsObject.

Section Members.
Context {A : Type}.
Implicit Types (m l : list (jsstr * A)) (k : jsstr) (v : A) (e : jsstr * A).

Lemma has_key_In k m : has_key k m = true <-> In k (map fst m).
Proof.
  unfold has_key; rewrite existsb_exists; split.
  - intros [[k' v'] [H1 H2]]; apply jseqb_eq in H2; cbn in H2; subst.
    apply in_map_iff; exists (k, v'); auto.
  - intro H; apply in_map_iff in H as [[k' v'] [H1 H2]]; cbn in H1; subst.
    exists (k, v'); split; [assumption | apply jseqb_refl].
Qed.

Lemma define_own_keys m k v :
  map fst (define_own m k v) =
  if has_key k m then map fst m else map fst m ++ [k].
Proof.
  induction m as [|[k' v'] r IH]; [reflexivity|]; cbn.
  destruct (jseqb k' k) eqn:E; cbn; [reflexivity|].
  rewrite IH; unfold has_key; destruct (existsb _ r); reflexivity.
Qed.

Lemma lookup_define_own m k v k' :
  lookup k' (define_own m k v) = if jseqb k k' then Some v else lookup k' m.
Proof.
  induction m as [|[k1 v1] r IH]; cbn.
  - destruct (jseqb k k'); reflexivity.
  - destruct (jseqb k1 k) eqn:E1; cbn.
    + apply jseqb_eq in E1; subst k1.
      destruct (jseqb k k'); reflexivity.
    + rewrite IH; destruct (jseqb k1 k') eqn:E2; [|reflexivity].
      apply jseqb_eq in E2; subst k1.
      destruct (jseqb k k') eqn:E3; [|reflexivity].
      apply jseqb_eq in E3; subst; rewrite jseqb_refl in E1; discriminate.
Qed.

Lemma define_own_nodup m k v :
  NoDup (map fst m) -> NoDup (map fst (define_own m k v)).
Proof.
  intro H; rewrite define_own_keys.
  destruct (has_key k m) eqn:E; [assumption|].
  apply NoDup_app; [assumption | constructor; [intros []|constructor] |].
  intros x Hx [<-|[]]; apply has_key_In in Hx; congruence.
Qed.

Lemma lookup_In m k v : lookup k m = Some v -> In (k, v) m.
Proof.
  induction m as [|[k' v'] r IH]; cbn; [discriminate|].
  destruct (jseqb k' k) eqn:E; [|auto].
  intro H; injection H as <-; apply jseqb_eq in E; subst; auto.
Qed.

Lemma In_lookup m k v : NoDup (map fst m) -> In (k, v) m -> lookup k m = Some v.
Proof.
  induction m as [|[k' v'] r IH]; cbn; [intros _ []|].
  intros Hnd [E|Hin]; inversion Hnd as [|x l Hn Hnd']; subst.
  - injection E as -> ->; rewrite jseqb_refl; reflexivity.
  - destruct (jseqb k' k) eqn:E; [|auto].
    apply jseqb_eq in E; subst; exfalso; apply Hn.
    apply in_map_iff; exists (k, v); auto.
Qed.

Lemma lookup_perm m m' k :
  NoDup (map fst m) -> Permutation m m' -> lookup k m' = lookup k m.
Proof.
  intros Hnd Hp.
  assert (Hnd' : NoDup (map fst m')) by (eapply Permutation_NoDup;
    [apply Permutation_map; exact Hp | exact Hnd]).
  destruct (lookup k m) as [v|] eqn:E.
  - apply In_lookup; [assumption|]; eapply Permutation_in; [exact Hp|].
    apply lookup_In; assumption.
  - destruct (lookup k m') as [v|] eqn:E'; [|reflexivity].
    apply lookup_In in E'; apply Permutation_sym in Hp.
    rewrite (In_lookup m k v Hnd (Permutation_in _ Hp E')) in E; discriminate.
Qed.

Lemma insert_by_index_perm (e : jsstr * A) l :
  Permutation (insert_by_index e l) (e :: l).
Proof.
  induction l as [|e' r IH]; cbn; [reflexivity|].
  destruct (idx_of (fst e) <=? idx_of (fst e'))%N; [reflexivity|].
  rewrite IH; apply perm_swap.
Qed.

Lemma sort_by_index_perm l : Permutation (sort_by_index l) l.
Proof.
  induction l as [|e r IH]; cbn; [reflexivity|].
  rewrite insert_by_index_perm, IH; reflexivity.
Qed.

Lemma filter_split_perm (f : jsstr * A -> bool) l :
  Permutation (filter f l ++ filter (fun e => negb (f e)) l) l.
Proof.
  induction l as [|e r IH]; cbn; [reflexivity|].
  destruct (f e); cbn.
  - rewrite IH; reflexivity.
  - rewrite <- Permutation_middle, IH; reflexivity.
Qed.

Lemma own_order_perm m : Permutation (own_order m) m.
Proof.
  unfold own_order; rewrite sort_by_index_perm; apply filter_split_perm.
Qed.

Definition idx_le (a b : jsstr * A) : Prop := (idx_of (fst a) <= idx_of (fst b))%N.

Lemma insert_by_index_sorted e l :
  Sorted idx_le l -> Sorted idx_le (insert_by_index e l).
Proof.
  induction l as [|e' r IH]; intro H; cbn; [repeat constructor|].
  destruct (idx_of (fst e) <=? idx_of (fst e'))%N eqn:E.
  - constructor; [assumption|]; constructor; apply N.leb_le; assumption.
  - apply Sorted_inv in H as [H1 H2]; constructor; [apply IH; assumption|].
    assert (Hlt : idx_le e' e) by (unfold idx_le; apply N.leb_gt in E; lia).
    destruct r as [|e'' r]; cbn; [constructor; assumption|].
    destruct (idx_of (fst e) <=? idx_of (fst e''))%N;
      constructor; [assumption|]; inversion H2; assumption.
Qed.

Lemma sort_by_index_sorted l : Sorted idx_le (sort_by_index l).
Proof.
  induction l as [|e r IH]; cbn; [constructor|].
  apply insert_by_index_sorted; assumption.
Qed.

End Members.

Lemma lookup_own_entries (o : jsobj) k :
  NoDup (map fst (own o)) -> lookup k (own_entries o) = lookup k (own o).
Proof.
  intro H; apply lookup_perm; [assumption | symmetry; apply own_order_perm].
Qed.

Lemma js_set_plain (o : jsobj) k v :
  k <> proto_key -> js_set o k v = mkobj (define_own (own o) k v) (proto_of o).
Proof.
  intro H; unfold js_set; rewrite (jseqb_neq _ _ H), andb_false_r; reflexivity.
Qed.

Lemma js_set_nodup (o : jsobj) k v :
  NoDup (map fst (own o)) -> NoDup (map fst (own (js_set o k v))).
Proof.
  intro H; unfold js_set.
  destruct (negb (has_key k (own o)) && jseqb k proto_key
            && reaches_proto_accessor (proto_of o)).
  - destruct v; try assumption.
  - apply define_own_nodup; assumption.
Qed.

End ObjectFacts.

(* ================================================================== *)
(** * Accumulating entries *)

Module AccumFacts.
Import JsString Json JsObject ObjectFacts.

(** The identifiers of [l] in order of first occurrence, skipping those
    already in [seen]. *)
Fixpoint first_occ (seen l : list jsstr) : list jsstr :=
  match l with
  | [] => []
  | x :: r => if existsb (jseqb x) seen then first_occ seen r
              else x :: first_occ (x :: seen) r
  end.

(** [masterAnalysis[k] = v] for every [(k, v)] of [l], in order. *)
Definition record_all (l : list (jsstr * json)) (m : list (jsstr * json)) :=
  fold_left (fun m e => define_own m (fst e) (snd e)) l m.

Lemma existsb_jseqb (x : jsstr) s : existsb (jseqb x) s = true <-> In x s.
Proof.
  rewrite existsb_exists; split.
  - intros [y [Hy E]]; apply jseqb_eq in E; subst; assumption.
  - intro H; exists x; split; [assumption | apply jseqb_refl].
Qed.

Lemma first_occ_seen s1 s2 l :
  (forall x, In x s1 <-> In x s2) -> first_occ s1 l = first_occ s2 l.
Proof.
  revert s1 s2; induction l as [|x r IH]; intros s1 s2 H; [reflexivity|]; cbn.
  destruct (existsb (jseqb x) s1) eqn:E1, (existsb (jseqb x) s2) eqn:E2.
  - apply IH; assumption.
  - apply existsb_jseqb, H, existsb_jseqb in E1; congruence.
  - apply existsb_jseqb, H, existsb_jseqb in E2; congruence.
  - f_equal; apply IH; intro y; cbn; rewrite H; reflexivity.
Qed.

Lemma has_key_existsb {A} (k : jsstr) (m : list (jsstr * A)) :
  has_key k m = existsb (jseqb k) (map fst m).
Proof.
  apply eq_true_iff_eq; rewrite has_key_In, existsb_jseqb; reflexivity.
Qed.

(** One more write keeps "initial keys, then first occurrences". *)
Lemma first_occ_step (m : list (jsstr * json)) k v l :
  map fst m ++ first_occ (map fst m) (k :: l) =
  map fst (define_own m k v) ++ first_occ (map fst (define_own m k v)) l.
Proof.
  rewrite define_own_keys, has_key_existsb; cbn.
  destruct (existsb (jseqb k) (map fst m)) eqn:E; [reflexivity|].
  rewrite <- app_assoc; cbn; f_equal; f_equal.
  apply first_occ_seen; intro y; cbn; rewrite in_app_iff; cbn; tauto.
Qed.

Lemma record_all_keys l m :
  map fst (record_all l m) = map fst m ++ first_occ (map fst m) (map fst l).
Proof.
  revert m; induction l as [|[k v] r IH]; intro m; cbn.
  - rewrite app_nil_r; reflexivity.
  - unfold record_all in IH; rewrite IH; symmetry; apply first_occ_step.
Qed.

Lemma record_all_nodup l m :
  NoDup (map fst m) -> NoDup (map fst (record_all l m)).
Proof.
  revert m; induction l as [|[k v] r IH]; intros m H; [assumption|].
  apply IH, define_own_nodup, H.
Qed.

Lemma lookup_record_all_notin l m k :
  ~ In k (map fst l) -> lookup k (record_all l m) = lookup k m.
Proof.
  revert m; induction l as [|[k' v] r IH]; intros m H; [reflexivity|].
  cbn in H; unfold record_all; cbn; fold (record_all r (define_own m k' v)).
  rewrite IH by tauto; rewrite lookup_define_own.
  rewrite jseqb_neq; [reflexivity | intro; apply H; left; assumption].
Qed.

(** The value of an identifier is the one of its last write. *)
Lemma lookup_record_all_last l m j k v :
  nth_error l j = Some (k, v) -> ~ In k (map fst (skipn (S j) l)) ->
  lookup k (record_all l m) = Some v.
Proof.
  revert m j; induction l as [|[k' v'] r IH]; intros m j Hj Hn;
    [destruct j; discriminate|].
  unfold record_all; cbn; fold (record_all r (define_own m k' v')).
  destruct j as [|j]; cbn in Hj, Hn.
  - injection Hj as -> ->.
    rewrite lookup_record_all_notin by assumption.
    rewrite lookup_define_own, jseqb_refl; reflexivity.
  - apply (IH _ j); assumption.
Qed.

Lemma filter_first_occ (f : jsstr -> bool) s l :
  filter f (first_occ s l) = first_occ (filter f s) (filter f l).
Proof.
  revert s; induction l as [|x r IH]; intro s; [reflexivity|]; cbn.
  destruct (existsb (jseqb x) s) eqn:E; destruct (f x) eqn:Ef; cbn.
  - rewrite IH.
    replace (existsb (jseqb x) (filter f s)) with true; [reflexivity|].
    symmetry; apply existsb_jseqb, filter_In; split;
      [apply existsb_jseqb; assumption | assumption].
  - apply IH.
  - replace (existsb (jseqb x) (filter f s)) with false.
    + rewrite Ef, IH; cbn; rewrite Ef; reflexivity.
    + symmetry; apply not_true_iff_false; intro H.
      apply existsb_jseqb, filter_In in H as [H _].
      apply existsb_jseqb in H; congruence.
  - rewrite Ef, IH; cbn; rewrite Ef; reflexivity.
Qed.

Lemma first_occ_In s l x : In x (first_occ s l) <-> In x l /\ ~ In x s.
Proof.
  revert s; induction l as [|y r IH]; intro s; cbn; [tauto|].
  destruct (existsb (jseqb y) s) eqn:E.
  - apply existsb_jseqb in E; rewrite IH; split; [tauto|].
    intros [[<-|H] Hn]; [contradiction | tauto].
  - assert (~ In y s) by (intro H; apply existsb_jseqb in H; congruence).
    cbn; rewrite IH; cbn; split.
    + intros [<-|[H1 H2]]; tauto.
    + intros [[<-|H1] H2]; [left; reflexivity|].
      destruct (jseqb y x) eqn:Eq; [apply jseqb_eq in Eq; left; assumption|].
      right; split; [assumption|]; intros [<-|H3]; [rewrite jseqb_refl in Eq; discriminate | tauto].
Qed.

Lemma first_occ_nodup s l : NoDup (first_occ s l).
Proof.
  revert s; induction l as [|x r IH]; intro s; cbn; [constructor|].
  destruct (existsb (jseqb x) s); [apply IH|].
  constructor; [|apply IH]; rewrite first_occ_In; cbn; tauto.
Qed.

End AccumFacts.

(* ================================================================== *)
(** * Facts about the loop *)

Module LoopFacts.
Import JsString Json Normalizer JsObject Batch ObjectFacts AccumFacts.

(** The trace one file contributes. *)
Inductive target_trace (n : nat) (p : jsstr) : list event -> Prop :=
| tt_skipped : target_trace n p []
| tt_read_failed : target_trace n p [EFailed p]
| tt_failed : target_trace n p [ECall p; EFailed p]
| tt_parsed : target_trace n p (ECall p :: (if (1 <? n)%nat then [ESleep 4000] else [])).

Definition is_sleep (e : event) : bool := match e with ESleep _ => true | _ => false end.
Definition is_failed (e : event) : bool := match e with EFailed _ => true | _ => false end.

(** A segment whose completion was parsed and recorded. *)
Definition parsed_segment (seg : list event) : bool :=
  match seg with
  | ECall _ :: rest => negb (existsb is_failed rest)
  | _ => false
  end.

Definition count_sleeps (tr : list event) : nat := length (filter is_sleep tr).

Section Loop.
Context {P : Type} (fs : fs_model) (mk : jsstr -> jsstr -> P) (n : nat).

Lemma analyze_file_missing gen st p :
  fs_exists fs p = false -> analyze_file fs mk gen n st p = (st, []).
Proof. intro H; unfold analyze_file; rewrite H; reflexivity. Qed.

Lemma analyze_loop_remove_missing gen st m l1 l2 :
  fs_exists fs m = false ->
  analyze_loop fs mk gen n st (l1 ++ m :: l2) = analyze_loop fs mk gen n st (l1 ++ l2).
Proof.
  intro Hm; revert st; induction l1 as [|p r IH]; intro st; cbn.
  - rewrite analyze_file_missing by assumption.
    destruct (analyze_loop fs mk gen n st l2); reflexivity.
  - destruct (analyze_file fs mk gen n st p); rewrite IH; reflexivity.
Qed.

Lemma analyze_file_trace gen st p :
  target_trace n p (snd (analyze_file fs mk gen n st p)).
Proof.
  unfold analyze_file.
  destruct (fs_exists fs p); [|constructor]; cbn.
  destruct (fs_read fs p) as [code|]; [|constructor]; cbn.
  destruct (gen (calls st) (mk p code)) as [raw|msg]; [|constructor].
  destruct (normalize raw); constructor.
Qed.

Lemma target_trace_sleeps p seg :
  target_trace n p seg ->
  count_sleeps seg = if (1 <? n)%nat then (if parsed_segment seg then 1 else 0) else 0.
Proof.
  destruct 1; unfold count_sleeps; destruct (1 <? n)%nat; reflexivity.
Qed.

Lemma analyze_loop_segments gen st files :
  exists segs, snd (analyze_loop fs mk gen n st files) = concat segs
            /\ Forall2 (target_trace n) files segs.
Proof.
  revert st; induction files as [|p r IH]; intro st.
  - exists []; split; constructor.
  - cbn; pose proof (analyze_file_trace gen st p) as Ht.
    destruct (analyze_file fs mk gen n st p) as [st1 e1].
    destruct (IH st1) as [segs [Hc Hf]].
    destruct (analyze_loop fs mk gen n st1 r) as [st2 e2]; cbn in *.
    exists (e1 :: segs); split; [rewrite Hc; reflexivity | constructor; assumption].
Qed.

Lemma count_sleeps_concat segs files :
  Forall2 (target_trace n) files segs ->
  count_sleeps (concat segs) =
  if (1 <? n)%nat then length (filter parsed_segment segs) else 0.
Proof.
  induction 1 as [|p seg ps segs Ht Hf IH]; [destruct (1 <? n)%nat; reflexivity|].
  cbn [concat].
  assert (Happ : count_sleeps (seg ++ concat segs) =
                 count_sleeps seg + count_sleeps (concat segs))
    by (unfold count_sleeps; rewrite filter_app, length_app; reflexivity).
  rewrite Happ, IH, (target_trace_sleeps p seg Ht); cbn [filter].
  destruct (1 <? n)%nat; [|reflexivity].
  destruct (parsed_segment seg); reflexivity.
Qed.

(** The accumulator after one file: unchanged when it is skipped, else
    written at [p]. *)
Lemma analyze_file_master gen st p :
  fs_exists fs p = true ->
  exists v, master (fst (analyze_file fs mk gen n st p)) = js_set (master st) p v.
Proof.
  intro He; unfold analyze_file; rewrite He; cbn.
  destruct (fs_read fs p) as [code|]; [|exists fallback; reflexivity].
  destruct (gen (calls st) (mk p code)) as [raw|msg]; [|exists fallback; reflexivity].
  destruct (normalize raw) as [v|]; [exists v | exists fallback]; reflexivity.
Qed.

Lemma analyze_loop_keys gen st files :
  ~ In proto_key files ->
  map fst (own (master (fst (analyze_loop fs mk gen n st files)))) =
  map fst (own (master st)) ++ first_occ (map fst (own (master st))) (filter (fs_exists fs) files).
Proof.
  revert st; induction files as [|p r IH]; intros st Hp.
  - cbn; rewrite app_nil_r; reflexivity.
  - assert (Hp' : p <> proto_key) by (intro; apply Hp; left; auto).
    cbn [analyze_loop filter].
    destruct (fs_exists fs p) eqn:He.
    + destruct (analyze_file_master gen st p He) as [v Hv].
      destruct (analyze_file fs mk gen n st p) as [st1 e1] eqn:Ef; cbn in Hv.
      specialize (IH st1 (fun H => Hp (or_intror H))).
      destruct (analyze_loop fs mk gen n st1 r) as [st2 e2]; cbn in *.
      rewrite IH, Hv, js_set_plain by assumption; cbn.
      symmetry; apply first_occ_step.
    + rewrite analyze_file_missing by assumption.
      specialize (IH st (fun H => Hp (or_intror H))).
      destruct (analyze_loop fs mk gen n st r); exact IH.
Qed.

Lemma js_set_keys (o : jsobj) k v x :
  In x (map fst (own (js_set o k v))) -> In x (map fst (own o)) \/ x = k.
Proof.
  unfold js_set.
  destruct (negb (has_key k (own o)) && jseqb k proto_key
            && reaches_proto_accessor (proto_of o)).
  - destruct v; cbn; auto.
  - cbn; rewrite define_own_keys; destruct (has_key k (own o)); auto.
    rewrite in_app_iff; cbn; intuition.
Qed.

(** Only identifiers that exist are ever written or sent to the model. *)
Lemma analyze_loop_written gen st files :
  (forall x, In x (map fst (own (master (fst (analyze_loop fs mk gen n st files))))) ->
             In x (map fst (own (master st))) \/ fs_exists fs x = true)
  /\ (forall p, In (ECall p) (snd (analyze_loop fs mk gen n st files)) ->
                fs_exists fs p = true).
Proof.
  revert st; induction files as [|p r IH]; intro st; cbn.
  - split; [auto | intros _ []].
  - destruct (fs_exists fs p) eqn:He.
    + destruct (analyze_file_master gen st p He) as [v Hv].
      pose proof (analyze_file_trace gen st p) as Ht.
      destruct (analyze_file fs mk gen n st p) as [st1 e1]; cbn in Hv, Ht.
      destruct (IH st1) as [IH1 IH2].
      destruct (analyze_loop fs mk gen n st1 r) as [st2 e2]; cbn in *.
      split.
      * intros x Hx; destruct (IH1 x Hx) as [H|H]; [|right; assumption].
        rewrite Hv in H; apply js_set_keys in H as [H|H];
          [left; assumption | subst x; right; assumption].
      * intros q Hq; apply in_app_or in Hq as [Hq|Hq]; [|auto].
        assert (Hc : forall e, In e e1 -> e = ECall p \/ is_sleep e = true \/ is_failed e = true).
        { intros e Hin; inversion Ht; subst; cbn in Hin;
            repeat match goal with
                   | H : _ \/ _ |- _ => destruct H as [H|H]
                   | H : In _ (if ?b then _ else _) |- _ => destruct b; cbn in H
                   end; subst; cbn; tauto. }
        destruct (Hc _ Hq) as [Heq|[Heq|Heq]]; [injection Heq as ->; assumption | discriminate..].
    + rewrite analyze_file_missing by assumption.
      destruct (IH st) as [IH1 IH2].
      destruct (analyze_loop fs mk gen n st r); cbn; split; assumption.
Qed.

End Loop.

(** [FILES.length] only decides whether a parsed target is followed by a
    sleep. *)
Definition no_sleeps (tr : list event) : list event := filter (fun e => negb (is_sleep e)) tr.

Section Nfiles.
Context {P : Type} (fs : fs_model) (mk : jsstr -> jsstr -> P) (gen : nat -> P -> reply).

Lemma analyze_file_nfiles n n' st p :
  fst (analyze_file fs mk gen n st p) = fst (analyze_file fs mk gen n' st p)
  /\ no_sleeps (snd (analyze_file fs mk gen n st p))
     = no_sleeps (snd (analyze_file fs mk gen n' st p))
  /\ ((1 <? n)%nat = (1 <? n')%nat ->
      analyze_file fs mk gen n st p = analyze_file fs mk gen n' st p).
Proof.
  unfold analyze_file.
  destruct (fs_exists fs p); cbn [negb]; [|auto].
  destruct (fs_read fs p) as [code|]; [|auto].
  destruct (gen (calls st) (mk p code)) as [raw|msg]; [|auto].
  destruct (normalize raw); [|auto].
  split; [reflexivity | split; [|intros ->; reflexivity]].
  destruct (1 <? n)%nat, (1 <? n')%nat; reflexivity.
Qed.

Lemma analyze_loop_nfiles n n' files : forall st,
  fst (analyze_loop fs mk gen n st files) = fst (analyze_loop fs mk gen n' st files)
  /\ no_sleeps (snd (analyze_loop fs mk gen n st files))
     = no_sleeps (snd (analyze_loop fs mk gen n' st files))
  /\ ((1 <? n)%nat = (1 <? n')%nat ->
      analyze_loop fs mk gen n st files = analyze_loop fs mk gen n' st files).
Proof.
  induction files as [|p r IH]; intro st; cbn; [auto|].
  destruct (analyze_file_nfiles n n' st p) as (H1 & H2 & H3).
  destruct (analyze_file fs mk gen n st p) as [s1 e1],
           (analyze_file fs mk gen n' st p) as [s1' e1']; cbn in H1, H2, H3; subst s1'.
  destruct (IH s1) as (I1 & I2 & I3).
  destruct (analyze_loop fs mk gen n s1 r) as [s2 e2],
           (analyze_loop fs mk gen n' s1 r) as [s2' e2']; cbn in *.
  split; [exact I1 | split].
  - unfold no_sleeps in *; rewrite !filter_app, H2, I2; reflexivity.
  - intro E; specialize (H3 E); specialize (I3 E).
    injection H3 as ->; injection I3 as -> ->; reflexivity.
Qed.

(** When every existing target is read and every completion parses, a
    target contributes its call and, if [nfiles > 1], one sleep. *)
Definition parsed_trace (n : nat) (p : jsstr) : list event :=
  if fs_exists fs p then ECall p :: (if (1 <? n)%nat then [ESleep 4000] else []) else [].

Lemma analyze_loop_all_answered n files : forall st,
  (forall p, In p files -> fs_exists fs p = true -> fs_read fs p <> None) ->
  (forall i x, exists raw v, gen i x = Reply raw /\ normalize raw = Some v) ->
  snd (analyze_loop fs mk gen n st files) = concat (map (parsed_trace n) files).
Proof.
  induction files as [|p r IH]; intros st Hr Hg; cbn; [reflexivity|].
  assert (E : snd (analyze_file fs mk gen n st p) = parsed_trace n p).
  { unfold analyze_file, parsed_trace.
    destruct (fs_exists fs p) eqn:He; cbn; [|reflexivity].
    destruct (fs_read fs p) as [code|] eqn:Er;
      [|exfalso; apply (Hr p (or_introl eq_refl) He Er)].
    destruct (Hg (calls st) (mk p code)) as (raw & v & -> & Hn); rewrite Hn; reflexivity. }
  destruct (analyze_file fs mk gen n st p) as [s1 e1]; cbn in E; subst e1.
  specialize (IH s1 (fun q Hq => Hr q (or_intror Hq)) Hg).
  destruct (analyze_loop fs mk gen n s1 r) as [s2 e2]; cbn in *; rewrite IH; reflexivity.
Qed.

Lemma count_sleeps_parsed n files :
  count_sleeps (concat (map (parsed_trace n) files))
  = if (1 <? n)%nat then length (filter (fs_exists fs) files) else 0%nat.
Proof.
  unfold count_sleeps; induction files as [|p r IH]; cbn [map concat];
    [destruct (1 <? n)%nat; reflexivity|].
  rewrite filter_app, length_app, IH; unfold parsed_trace; cbn [filter].
  destruct (fs_exists fs p), (1 <? n)%nat; reflexivity.
Qed.

End Nfiles.
End LoopFacts.

(* ================================================================== *)
(** * Isolation of one target's outcome *)

Module IsolationFacts.
Import JsString Json Normalizer JsObject Batch ObjectFacts.

(** Two accumulators that differ at most in the value stored at [p]. *)
Definition agree_except (p : jsstr) (o1 o2 : jsobj) : Prop :=
  map fst (own o1) = map fst (own o2) /\ proto_of o1 = proto_of o2
  /\ forall k, k <> p -> lookup k (own o1) = lookup k (own o2).

Lemma has_key_keys {A B} k (m1 : list (jsstr * A)) (m2 : list (jsstr * B)) :
  map fst m1 = map fst m2 -> has_key k m1 = has_key k m2.
Proof.
  intro H; apply eq_true_iff_eq; rewrite !has_key_In, H; reflexivity.
Qed.

Lemma js_set_agree p o1 o2 k v :
  agree_except p o1 o2 -> agree_except p (js_set o1 k v) (js_set o2 k v).
Proof.
  intros (Hk & Hp & Hl); unfold agree_except, js_set.
  rewrite (has_key_keys k (own o1) (own o2) Hk), Hp.
  destruct (negb (has_key k (own o2)) && jseqb k proto_key
            && reaches_proto_accessor (proto_of o2)).
  - destruct v; cbn; (split; [exact Hk | split; [first [exact Hp | reflexivity] | exact Hl]]).
  - cbn [own proto_of]; split; [|split; [reflexivity|]].
    + rewrite !define_own_keys, Hk, (has_key_keys k (own o1) (own o2) Hk); reflexivity.
    + intros k' Hk'; rewrite !lookup_define_own, Hl by assumption; reflexivity.
Qed.

(** Two writes at the same plain key leave the other entries alike. *)
Lemma js_set_same_key o p v1 v2 :
  p <> proto_key -> agree_except p (js_set o p v1) (js_set o p v2).
Proof.
  intro H; rewrite !js_set_plain by exact H; unfold agree_except; cbn [own proto_of].
  split; [rewrite !define_own_keys; reflexivity | split; [reflexivity|]].
  intros k Hk; rewrite !lookup_define_own, jseqb_neq by (intro; apply Hk; symmetry; assumption).
  reflexivity.
Qed.

Section Pair.
Context {P : Type} (fs : fs_model) (mk : jsstr -> jsstr -> P) (n : nat).

Lemma analyze_file_agree p gen1 gen2 s1 s2 q :
  agree_except p (master s1) (master s2) -> calls s1 = calls s2 ->
  (forall x, gen1 (calls s1) x = gen2 (calls s1) x) ->
  let r1 := analyze_file fs mk gen1 n s1 q in
  let r2 := analyze_file fs mk gen2 n s2 q in
  agree_except p (master (fst r1)) (master (fst r2))
  /\ calls (fst r1) = calls (fst r2) /\ snd r1 = snd r2
  /\ (calls s1 <= calls (fst r1))%nat.
Proof.
  intros Ha Hc Hg; unfold analyze_file; cbn.
  destruct (fs_exists fs q); cbn; [|repeat split; auto; apply Ha].
  destruct (fs_read fs q) as [code|]; cbn.
  - rewrite <- Hc, <- Hg.
    destruct (gen1 (calls s1) (mk q code)) as [raw|msg];
      [destruct (normalize raw) as [v|]|]; cbn;
      (split; [apply js_set_agree, Ha | split; [reflexivity | split; [reflexivity | lia]]]).
  - split; [apply js_set_agree, Ha | split; [assumption | split; [reflexivity | lia]]].
Qed.

(** A target that exists and is read is written once and costs a call. *)
Lemma analyze_file_read gen st p code :
  fs_exists fs p = true -> fs_read fs p = Some code ->
  exists v ev, analyze_file fs mk gen n st p
               = (mkstate (js_set (master st) p v) (S (calls st)), ev).
Proof.
  intros He Hr; unfold analyze_file; rewrite He, Hr; cbn.
  destruct (gen (calls st) (mk p code)) as [raw|msg];
    [destruct (normalize raw)|]; eexists; eexists; reflexivity.
Qed.

(** The [catch] branch after a rejected call or an unparsable completion. *)
Lemma analyze_file_failed gen st p code :
  fs_exists fs p = true -> fs_read fs p = Some code ->
  match gen (calls st) (mk p code) with
  | Rejected _ => True
  | Reply raw => normalize raw = None
  end ->
  analyze_file fs mk gen n st p
  = (mkstate (js_set (master st) p fallback) (S (calls st)), [ECall p; EFailed p]).
Proof.
  intros He Hr Hf; unfold analyze_file; rewrite He, Hr; cbn.
  destruct (gen (calls st) (mk p code)) as [raw|msg]; [rewrite Hf|]; reflexivity.
Qed.

(** Two runs that start from accumulators differing only at [p], with the
    same number of calls made so far and a model that answers the later
    calls alike, go through the same steps. *)
Lemma analyze_loop_agree p gen1 gen2 files : forall s1 s2,
  agree_except p (master s1) (master s2) -> calls s1 = calls s2 ->
  (forall i x, (calls s1 <= i)%nat -> gen1 i x = gen2 i x) ->
  let r1 := analyze_loop fs mk gen1 n s1 files in
  let r2 := analyze_loop fs mk gen2 n s2 files in
  agree_except p (master (fst r1)) (master (fst r2))
  /\ calls (fst r1) = calls (fst r2) /\ snd r1 = snd r2.
Proof.
  induction files as [|q r IH]; intros s1 s2 Ha Hc Hg; cbn.
  - auto.
  - destruct (analyze_file_agree p gen1 gen2 s1 s2 q Ha Hc (fun x => Hg _ x (le_n _)))
      as (Ha1 & Hc1 & He1 & Hm1).
    destruct (analyze_file fs mk gen1 n s1 q) as [t1 e1].
    destruct (analyze_file fs mk gen2 n s2 q) as [t2 e2]; cbn in *.
    destruct (IH t1 t2 Ha1 Hc1 (fun i x Hi => Hg i x (Nat.le_trans _ _ _ Hm1 Hi)))
      as (Ha2 & Hc2 & He2).
    destruct (analyze_loop fs mk gen1 n t1 r) as [u1 f1].
    destruct (analyze_loop fs mk gen2 n t2 r) as [u2 f2]; cbn in *.
    subst; auto.
Qed.

End Pair.
End IsolationFacts.

(* ================================================================== *)
(** * Runs in which every completion parses *)

Module SuccessFacts.
Import JsString Json Normalizer JsObject Batch ObjectFacts AccumFacts.

(** The writes of a run whose [i]-th call (counting from [j]) yields
    [vals i]. *)
Fixpoint recorded_from (vals : nat -> json) (j : nat) (files : list jsstr)
  : list (jsstr * json) :=
  match files with
  | [] => []
  | p :: r => (p, vals j) :: recorded_from vals (S j) r
  end.

Lemma recorded_from_keys vals j files : map fst (recorded_from vals j files) = files.
Proof.
  revert j; induction files as [|p r IH]; intro j; cbn; [reflexivity|]; rewrite IH; reflexivity.
Qed.

Lemma recorded_from_nth vals j files i p :
  nth_error files i = Some p -> nth_error (recorded_from vals j files) i = Some (p, vals (j + i)%nat).
Proof.
  revert j i; induction files as [|q r IH]; intros j i H; [destruct i; discriminate|].
  destruct i as [|i]; cbn in *.
  - injection H as ->; rewrite Nat.add_0_r; reflexivity.
  - rewrite (IH (S j) i H); replace (j + S i)%nat with (S j + i)%nat by lia; reflexivity.
Qed.

Lemma map_fst_skipn {A B} (l : list (A * B)) i : map fst (skipn i l) = skipn i (map fst l).
Proof.
  revert i; induction l as [|e r IH]; intro i; destruct i; cbn; auto.
Qed.

Lemma map_fst_filter {A} (f : jsstr -> bool) (l : list (jsstr * A)) :
  map fst (filter (fun e => f (fst e)) l) = filter f (map fst l).
Proof.
  induction l as [|e r IH]; cbn; [reflexivity|]; destruct (f (fst e)); cbn; rewrite IH; reflexivity.
Qed.

Section Run.
Context {P : Type} (fs : fs_model) (mk : jsstr -> jsstr -> P) (n : nat).
Variables (gen : nat -> P -> reply) (raws : nat -> jsstr) (vals : nat -> json).

Lemma analyze_loop_all_parsed files : forall st,
  ~ In proto_key files ->
  (forall p, In p files -> fs_exists fs p = true /\ fs_read fs p <> None) ->
  (forall i x, (calls st <= i < calls st + length files)%nat -> gen i x = Reply (raws i)) ->
  (forall i, (calls st <= i < calls st + length files)%nat -> normalize (raws i) = Some (vals i)) ->
  master (fst (analyze_loop fs mk gen n st files)) =
    mkobj (record_all (recorded_from vals (calls st) files) (own (master st)))
          (proto_of (master st))
  /\ calls (fst (analyze_loop fs mk gen n st files)) = (calls st + length files)%nat.
Proof.
  induction files as [|p r IH]; intros st Hp Hf Hg Hn.
  - cbn; rewrite Nat.add_0_r; destruct (master st); split; reflexivity.
  - cbn [analyze_loop].
    destruct (Hf p (or_introl eq_refl)) as [He Hr].
    destruct (fs_read fs p) as [code|] eqn:Ec; [|contradiction].
    cbn [length] in Hg, Hn.
    assert (Hi : (calls st <= calls st < calls st + S (length r))%nat) by lia.
    assert (Hstep : analyze_file fs mk gen n st p =
      (mkstate (js_set (master st) p (vals (calls st))) (S (calls st)),
       ECall p :: (if (1 <? n)%nat then [ESleep 4000] else []))).
    { unfold analyze_file; rewrite He, Ec; cbn.
      rewrite (Hg _ (mk p code) Hi), (Hn _ Hi); reflexivity. }
    rewrite Hstep.
    assert (Hp' : p <> proto_key) by (intro; apply Hp; left; auto).
    destruct (IH (mkstate (js_set (master st) p (vals (calls st))) (S (calls st))))
      as [IH1 IH2].
    + intro H; apply Hp; right; exact H.
    + intros q Hq; apply Hf; right; exact Hq.
    + intros i x Hi'; apply Hg; cbn in Hi'; lia.
    + intros i Hi'; apply Hn; cbn in Hi'; lia.
    + destruct (analyze_loop fs mk gen n
                  (mkstate (js_set (master st) p (vals (calls st))) (S (calls st))) r)
        as [st2 e2]; cbn in *.
      rewrite IH1, IH2, js_set_plain by assumption; cbn; split; [reflexivity | lia].
Qed.

End Run.

(** What [JSON.stringify] writes for the accumulator [record_all l []]. *)
Lemma own_entries_record_all (l : list (jsstr * json)) :
  let out := own_entries (mkobj (record_all l []) ObjectPrototype) in
  NoDup (map fst out)
  /\ (forall k, In k (map fst out) <-> In k (map fst l))
  /\ (forall j k v, nth_error l j = Some (k, v) -> ~ In k (map fst (skipn (S j) l)) ->
                    lookup k out = Some v)
  /\ exists pre post, out = pre ++ post
       /\ Forall (fun e => is_array_index (fst e) = true) pre
       /\ Sorted idx_le pre
       /\ map fst post = first_occ [] (filter (fun k => negb (is_array_index k)) (map fst l)).
Proof.
  cbn zeta.
  assert (Hnd : NoDup (map fst (record_all l []))) by (apply record_all_nodup; constructor).
  assert (Hk : map fst (record_all l []) = first_occ [] (map fst l))
    by (rewrite record_all_keys; reflexivity).
  assert (Hperm : Permutation (own_entries (mkobj (record_all l []) ObjectPrototype))
                              (record_all l []))
    by apply own_order_perm.
  split; [|split; [|split]].
  - eapply Permutation_NoDup; [|exact Hnd].
    symmetry; apply Permutation_map, Hperm.
  - intro k; split; intro H.
    + apply (Permutation_in _ (Permutation_map fst Hperm)) in H.
      rewrite Hk, first_occ_In in H; tauto.
    + apply (Permutation_in _ (Permutation_map fst (Permutation_sym Hperm))).
      rewrite Hk, first_occ_In; cbn; tauto.
  - intros j k v Hj Hs.
    rewrite (lookup_own_entries (mkobj (record_all l []) ObjectPrototype) k Hnd); cbn [own].
    apply (lookup_record_all_last l [] j k v Hj Hs).
  - unfold own_entries, own_order; cbn [own].
    eexists; eexists; split; [reflexivity|]; split; [|split].
    + apply Forall_forall; intros e He.
      apply (Permutation_in _ (sort_by_index_perm _)), filter_In in He; tauto.
    + apply sort_by_index_sorted.
    + rewrite (map_fst_filter (fun k => negb (is_array_index k))), Hk, filter_first_occ.
      reflexivity.
Qed.

End SuccessFacts.

(* ================================================================== *)
(** * Concrete inputs *)

Module Examples.
Import JsString Json Normalizer JsObject Batch Context.

Definition component : jsstr := js "export default function App() { return null; }".

(** Every path exists and reads as [component]. *)
Definition all_present : fs_model :=
  {| fs_exists := fun _ => true; fs_read := fun _ => Some component |}.

(** A repository with a README and no package.json. *)
Definition readme_only (readme : jsstr) : fs_model :=
  {| fs_exists := fun p => jseqb p readme_md;
     fs_read := fun p => if jseqb p readme_md then Some readme else None |}.

(** Only [present] exists. *)
Definition only (present : jsstr) : fs_model :=
  {| fs_exists := fun p => jseqb p present;
     fs_read := fun p => if jseqb p present then Some component else None |}.

Definition empty_props : jsstr := js "{}".

(** A model whose every completion is [{}]. *)
Definition answers_empty {P : Type} : nat -> P -> reply := fun _ _ => Reply empty_props.

(** A model that rejects its first call and answers [{}] afterwards. *)
Definition rejects_first {P : Type} : nat -> P -> reply :=
  fun i _ => if (i =? 0)%nat then Rejected (js "429 Too Many Requests") else Reply empty_props.

(** A model that answers [{}] to its first call and rejects the others. *)
Definition answers_first {P : Type} : nat -> P -> reply :=
  fun i _ => if (i =? 0)%nat then Reply empty_props else Rejected (js "429 Too Many Requests").

(** Numbers printed as their lexeme (no number occurs in the examples). *)
Definition lexeme_numbers : number_semantics :=
  {| num_to_string := fun l => l; num_truthy := fun _ => true |}.

End Examples.

(* ================================================================== *)
(** * The claims *)

Module Claims.
Import JsString Json Normalizer JsObject Batch Context Examples.
Import NormalizerFacts ObjectFacts AccumFacts LoopFacts IsolationFacts SuccessFacts.

(** Both scripts run [analyze_loop] from [init_state] over [FILES] with
    [nfiles = length FILES] and write [own_entries] of the accumulator;
    they differ only in the prompt ([mk]). *)

(** C1 (amended): when no identifier is ["__proto__"], every identifier
    exists and is readable, and the [i]-th model call returns a completion
    that normalizes to [vals i], the artifact has exactly one entry per
    distinct input identifier and no other; the value of an identifier is
    the one parsed from the completion of its last occurrence; the
    canonical array-index identifiers (["0"], ["1"], ...) come first in
    ascending numeric order, then the other identifiers in order of first
    occurrence. *)
Theorem all_parsed_artifact {P : Type} (fs : fs_model) (mk : jsstr -> jsstr -> P)
  (gen : nat -> P -> reply) (raws : nat -> jsstr) (vals : nat -> json) (FILES : list jsstr) :
  ~ In proto_key FILES ->
  (forall p, In p FILES -> fs_exists fs p = true /\ fs_read fs p <> None) ->
  (forall i x, (i < length FILES)%nat -> gen i x = Reply (raws i)) ->
  (forall i, (i < length FILES)%nat -> normalize (raws i) = Some (vals i)) ->
  let out := own_entries (master (fst (analyze_loop fs mk gen (length FILES) init_state FILES))) in
  NoDup (map fst out)
  /\ (forall k, In k (map fst out) <-> In k FILES)
  /\ (forall j k, nth_error FILES j = Some k -> ~ In k (skipn (S j) FILES) ->
                  lookup k out = Some (vals j))
  /\ exists pre post, out = pre ++ post
       /\ Forall (fun e => is_array_index (fst e) = true) pre
       /\ Sorted idx_le pre
       /\ map fst post = first_occ [] (filter (fun k => negb (is_array_index k)) FILES).
Proof.
  intros Hp Hf Hg Hn.
  destruct (analyze_loop_all_parsed fs mk (length FILES) gen raws vals FILES init_state Hp Hf
              (fun i x Hi => Hg i x (proj2 Hi)) (fun i Hi => Hn i (proj2 Hi))) as [Hm _].
  cbn zeta; rewrite Hm; cbn [master init_state empty_object own proto_of calls].
  destruct (own_entries_record_all (recorded_from vals 0 FILES)) as (H1 & H2 & H3 & H4).
  rewrite recorded_from_keys in H2, H4.
  split; [exact H1 | split; [exact H2 | split; [|exact H4]]].
  intros j k Hj Hs; apply (H3 j).
  - apply (recorded_from_nth vals 0 FILES j k Hj).
  - rewrite map_fst_skipn, recorded_from_keys; exact Hs.
Qed.

Lemma all_parsed_artifact_witness :
  let FILES := [js "src/App.jsx"; js "2"; js "1"; js "src/App.jsx"] in
  ~ In proto_key FILES
  /\ let out := own_entries (master (fst (analyze_loop all_present (fun _ code => code)
                   answers_empty (length FILES) init_state FILES))) in
     NoDup (map fst out)
     /\ (forall k, In k (map fst out) <-> In k FILES)
     /\ (forall j k, nth_error FILES j = Some k -> ~ In k (skipn (S j) FILES) ->
                     lookup k out = Some (JObj []))
     /\ exists pre post, out = pre ++ post
          /\ Forall (fun e => is_array_index (fst e) = true) pre
          /\ Sorted idx_le pre
          /\ map fst post = first_occ [] (filter (fun k => negb (is_array_index k)) FILES).
Proof.
  cbn zeta; split.
  - vm_compute; intros H; repeat (destruct H as [H|H]; [discriminate|]); exact H.
  - apply (all_parsed_artifact all_present (fun _ code => code) answers_empty
             (fun _ => empty_props) (fun _ => JObj [])).
    + vm_compute; intros H; repeat (destruct H as [H|H]; [discriminate|]); exact H.
    + intros p _; split; [reflexivity | discriminate].
    + intros i x _; reflexivity.
    + intros i _; vm_compute; reflexivity.
Defined.

(** C1 counterexample: for the input ["2", "1"], both readable and both
    answered with [{}], the artifact lists ["1"] before ["2"]. *)
Lemma all_parsed_artifact_reordered :
  exists out tr, main_v1 all_present answers_empty [js "2"; js "1"] = Finished out tr
                 /\ map fst out = [js "1"; js "2"] /\ map fst out <> [js "2"; js "1"].
Proof.
  eexists; eexists; split; [vm_compute; reflexivity | split; vm_compute; [reflexivity | discriminate]].
Qed.

(** C2: for a target [p] other than ["__proto__"] that exists and
    is read, if the model call is rejected or its completion does not
    normalize, the step records [{ props: {}, wrappers: {} }] at [p] and
    reports the failure; compared with any model that answers that one
    call differently, the call count after the step and the whole rest of
    the run are the same: same trace, same identifiers in the same order,
    same prototype, same value for every identifier other than [p]. *)
Theorem failed_target_fallback {P : Type} (fs : fs_model) (mk : jsstr -> jsstr -> P) (n : nat)
  (gen gen' : nat -> P -> reply) (st : run_state) (p code : jsstr) (rest : list jsstr) :
  p <> proto_key -> fs_exists fs p = true -> fs_read fs p = Some code ->
  match gen (calls st) (mk p code) with
  | Rejected _ => True
  | Reply raw => normalize raw = None
  end ->
  (forall i x, i <> calls st -> gen' i x = gen i x) ->
  let r := analyze_file fs mk gen n st p in
  let r' := analyze_file fs mk gen' n st p in
  lookup p (own (master (fst r))) = Some fallback
  /\ snd r = [ECall p; EFailed p]
  /\ calls (fst r) = calls (fst r')
  /\ let t := analyze_loop fs mk gen n (fst r) rest in
     let t' := analyze_loop fs mk gen' n (fst r') rest in
     snd t = snd t' /\ agree_except p (master (fst t)) (master (fst t')).
Proof.
  intros Hp He Hr Hf Hg; cbn zeta.
  rewrite (analyze_file_failed fs mk n gen st p code He Hr Hf).
  destruct (analyze_file_read fs mk n gen' st p code He Hr) as (v & ev & E); rewrite E.
  cbn [fst snd master calls].
  split; [|split; [reflexivity | split; [reflexivity|]]].
  - rewrite js_set_plain by exact Hp; cbn [own]; rewrite lookup_define_own, jseqb_refl.
    reflexivity.
  - destruct (analyze_loop_agree fs mk n p gen gen' rest
                (mkstate (js_set (master st) p fallback) (S (calls st)))
                (mkstate (js_set (master st) p v) (S (calls st)))
                (js_set_same_key (master st) p fallback v Hp) eq_refl)
      as (Ha & _ & Ht).
    + intros i x Hi; cbn in Hi; symmetry; apply Hg; lia.
    + split; [exact Ht | exact Ha].
Qed.

Lemma failed_target_fallback_witness :
  js "src/Card.jsx" <> proto_key
  /\ fs_exists all_present (js "src/Card.jsx") = true
  /\ fs_read all_present (js "src/Card.jsx") = Some component
  /\ (let r := analyze_file all_present (fun _ code => code) rejects_first 2 init_state
                 (js "src/Card.jsx") in
      let r' := analyze_file all_present (fun _ code => code) (fun i x => answers_empty i x) 2
                  init_state (js "src/Card.jsx") in
      lookup (js "src/Card.jsx") (own (master (fst r))) = Some fallback
      /\ snd r = [ECall (js "src/Card.jsx"); EFailed (js "src/Card.jsx")]
      /\ calls (fst r) = calls (fst r')
      /\ let t := analyze_loop all_present (fun _ code => code) rejects_first 2 (fst r)
                    [js "src/Nav.jsx"] in
         let t' := analyze_loop all_present (fun _ code => code) (fun i x => answers_empty i x) 2
                     (fst r') [js "src/Nav.jsx"] in
         snd t = snd t' /\ agree_except (js "src/Card.jsx") (master (fst t)) (master (fst t'))).
Proof.
  split; [vm_compute; discriminate | split; [reflexivity | split; [reflexivity|]]].
  apply (failed_target_fallback all_present (fun _ code => code) 2 rejects_first
           (fun i x => answers_empty i x) init_state (js "src/Card.jsx") component
           [js "src/Nav.jsx"]).
  - vm_compute; discriminate.
  - reflexivity.
  - reflexivity.
  - vm_compute; exact I.
  - intros i x Hi; destruct i as [|i]; [cbn in Hi; lia | reflexivity].
Defined.

(** C2 failing input: a failed target named ["__proto__"] gets no entry,
    against the fallback the catch block means to record: the assignment
    [masterAnalysis[filePath] = { props: {}, wrappers: {} }] goes to the
    prototype setter of [Object.prototype.__proto__]. *)
Lemma failed_target_proto_no_entry :
  exists out tr, main_v1 all_present rejects_first [proto_key] = Finished out tr
                 /\ In (EFailed proto_key) tr /\ lookup proto_key out = None.
Proof.
  eexists; eexists; split; [vm_compute; reflexivity | split; vm_compute; [|reflexivity]].
  right; left; reflexivity.
Qed.

(** C3 (amended): when every existing target is read and every completion
    parses, the trace is, target by target, nothing for a missing
    identifier and the call followed by one 4000 ms sleep for the others,
    the last one included, that sleep taken only when the input list
    (missing identifiers included) has more than one element.  So such a
    batch of [N] existing targets makes [N] sleeps when [FILES.length > 1],
    and none otherwise. *)
Theorem sleeps_per_parsed_target {P : Type} (fs : fs_model) (mk : jsstr -> jsstr -> P)
  (gen : nat -> P -> reply) (FILES : list jsstr) :
  (forall p, In p FILES -> fs_exists fs p = true -> fs_read fs p <> None) ->
  (forall i x, exists raw v, gen i x = Reply raw /\ normalize raw = Some v) ->
  let tr := snd (analyze_loop fs mk gen (length FILES) init_state FILES) in
  tr = concat (map (fun p => if fs_exists fs p
                             then ECall p :: (if (1 <? length FILES)%nat
                                              then [ESleep 4000] else [])
                             else []) FILES)
  /\ count_sleeps tr
     = if (1 <? length FILES)%nat then length (filter (fs_exists fs) FILES) else 0%nat.
Proof.
  intros Hr Hg; cbn zeta.
  rewrite (analyze_loop_all_answered fs mk gen (length FILES) FILES init_state Hr Hg).
  split; [reflexivity | apply count_sleeps_parsed].
Qed.

Lemma sleeps_per_parsed_target_witness :
  let FILES := [js "src/App.jsx"; js "src/Old.jsx"; js "src/App.jsx"] in
  (forall p, In p FILES -> fs_exists (only (js "src/App.jsx")) p = true ->
             fs_read (only (js "src/App.jsx")) p <> None)
  /\ (forall i (x : jsstr), exists raw v, answers_empty i x = Reply raw /\ normalize raw = Some v)
  /\ let tr := snd (analyze_loop (only (js "src/App.jsx")) (fun _ code => code) answers_empty
                      (length FILES) init_state FILES) in
     tr = concat (map (fun p => if fs_exists (only (js "src/App.jsx")) p
                                then ECall p :: (if (1 <? length FILES)%nat
                                                 then [ESleep 4000] else [])
                                else []) FILES)
     /\ count_sleeps tr
        = if (1 <? length FILES)%nat
          then length (filter (fs_exists (only (js "src/App.jsx"))) FILES) else 0%nat.
Proof.
  cbn zeta.
  assert (Hr : forall p, In p [js "src/App.jsx"; js "src/Old.jsx"; js "src/App.jsx"] ->
                 fs_exists (only (js "src/App.jsx")) p = true ->
                 fs_read (only (js "src/App.jsx")) p <> None).
  { intros p _ He; cbn in *; rewrite He; discriminate. }
  assert (Hg : forall i (x : jsstr), exists raw v,
             answers_empty i x = Reply raw /\ normalize raw = Some v).
  { intros i x; exists empty_props, (JObj []); split; [reflexivity | vm_compute; reflexivity]. }
  split; [exact Hr | split; [exact Hg|]].
  exact (sleeps_per_parsed_target (only (js "src/App.jsx")) (fun _ code => code) answers_empty
           [js "src/App.jsx"; js "src/Old.jsx"; js "src/App.jsx"] Hr Hg).
Defined.

(** C3 counterexample: two readable targets, both parsed: two sleeps,
    not [max(0, 2 - 1) = 1]. *)
Lemma sleeps_after_last_target :
  exists out tr, main_v1 all_present answers_empty [js "A.jsx"; js "B.jsx"] = Finished out tr
                 /\ count_sleeps tr = 2%nat.
Proof.
  eexists; eexists; split; [vm_compute; reflexivity | vm_compute; reflexivity].
Qed.

(** C4 (amended): when no identifier is ["__proto__"], each processed
    target is written by a plain assignment: an identifier not yet present
    is appended, one already present gets its value replaced in place (the
    later write wins, at the position of the first); the accumulator's
    identifiers are the existing input identifiers in order of first
    occurrence. *)
Theorem writes_in_place {P : Type} (fs : fs_model) (mk : jsstr -> jsstr -> P)
  (gen : nat -> P -> reply) (FILES : list jsstr) :
  ~ In proto_key FILES ->
  (forall n st p, In p FILES -> fs_exists fs p = true ->
     exists v, master (fst (analyze_file fs mk gen n st p))
               = mkobj (define_own (own (master st)) p v) (proto_of (master st)))
  /\ map fst (own (master (fst (analyze_loop fs mk gen (length FILES) init_state FILES))))
     = first_occ [] (filter (fs_exists fs) FILES).
Proof.
  intro Hp; split.
  - intros n st p Hin He.
    destruct (analyze_file_master fs mk n gen st p He) as [v Hv]; exists v.
    rewrite Hv; apply js_set_plain; intro E; apply Hp; rewrite <- E; exact Hin.
  - rewrite (analyze_loop_keys fs mk (length FILES) gen init_state FILES Hp); reflexivity.
Qed.

Lemma writes_in_place_witness :
  ~ In proto_key [js "A.jsx"; js "A.jsx"]
  /\ (forall n st p, In p [js "A.jsx"; js "A.jsx"] -> fs_exists all_present p = true ->
       exists v, master (fst (analyze_file all_present (fun _ code => code) rejects_first n st p))
                 = mkobj (define_own (own (master st)) p v) (proto_of (master st)))
  /\ map fst (own (master (fst (analyze_loop all_present (fun _ code => code) rejects_first
                                  2 init_state [js "A.jsx"; js "A.jsx"]))))
     = first_occ [] (filter (fs_exists all_present) [js "A.jsx"; js "A.jsx"]).
Proof.
  assert (H : ~ In proto_key [js "A.jsx"; js "A.jsx"])
    by (vm_compute; intros H; repeat (destruct H as [H|H]; [discriminate|]); exact H).
  split; [exact H|].
  apply (writes_in_place all_present (fun _ code => code) rejects_first
           [js "A.jsx"; js "A.jsx"] H).
Defined.

(** C4 counterexample: ["A.jsx", "A.jsx"] with the first call rejected:
    the fallback first written for ["A.jsx"] is overwritten by [{}]. *)
Lemma duplicate_overwritten :
  exists out, main_v1 all_present rejects_first [js "A.jsx"; js "A.jsx"]
              = Finished out [ECall (js "A.jsx"); EFailed (js "A.jsx"); ECall (js "A.jsx");
                              ESleep 4000; EWriteArtifact]
              /\ lookup (js "A.jsx") out = Some (JObj []) /\ JObj [] <> fallback.
Proof.
  eexists; split; [vm_compute; reflexivity | split; [vm_compute; reflexivity | discriminate]].
Qed.

(** C5 (amended): an identifier [m] that does not exist gets no entry and
    no model call.  Dropping it from the list (so that [FILES.length] is
    one less) leaves the final accumulator and call count unchanged, and
    the trace unchanged up to sleeps; the trace is unchanged altogether
    when more than one identifier remains. *)
Theorem missing_skipped_run {P : Type} (fs : fs_model) (mk : jsstr -> jsstr -> P)
  (gen : nat -> P -> reply) (l1 l2 : list jsstr) (m : jsstr) :
  fs_exists fs m = false ->
  let r := analyze_loop fs mk gen (length (l1 ++ m :: l2)) init_state (l1 ++ m :: l2) in
  let r' := analyze_loop fs mk gen (length (l1 ++ l2)) init_state (l1 ++ l2) in
  fst r = fst r'
  /\ no_sleeps (snd r) = no_sleeps (snd r')
  /\ ((1 < length (l1 ++ l2))%nat -> snd r = snd r')
  /\ ~ In m (map fst (own_entries (master (fst r))))
  /\ ~ In (ECall m) (snd r).
Proof.
  intro Hm; cbn zeta.
  set (n := length (l1 ++ m :: l2)); set (n' := length (l1 ++ l2)).
  rewrite (analyze_loop_remove_missing fs mk n gen init_state m l1 l2 Hm).
  destruct (analyze_loop_nfiles fs mk gen n n' (l1 ++ l2) init_state) as (H1 & H2 & H3).
  split; [exact H1 | split; [exact H2 | split]].
  - intro Hl; rewrite H3; [reflexivity|].
    subst n n'; rewrite length_app in Hl.
    transitivity true; [|symmetry]; apply Nat.ltb_lt; rewrite length_app;
      cbn [length]; lia.
  - destruct (analyze_loop_written fs mk n gen init_state (l1 ++ l2)) as [Hk Hc].
    split.
    + intro H; unfold own_entries in H.
      apply (Permutation_in _ (Permutation_map fst (own_order_perm _))) in H.
      destruct (Hk m H) as [H'|H']; [cbn in H'; contradiction | congruence].
    + intro H; apply Hc in H; congruence.
Qed.

Lemma missing_skipped_run_witness :
  fs_exists (only (js "src/App.jsx")) (js "src/Old.jsx") = false
  /\ let r := analyze_loop (only (js "src/App.jsx")) (fun _ code => code) answers_empty
                (length ([js "src/App.jsx"] ++ js "src/Old.jsx" :: [js "src/Nav.jsx"])) init_state
                ([js "src/App.jsx"] ++ js "src/Old.jsx" :: [js "src/Nav.jsx"]) in
     let r' := analyze_loop (only (js "src/App.jsx")) (fun _ code => code) answers_empty
                 (length ([js "src/App.jsx"] ++ [js "src/Nav.jsx"])) init_state
                 ([js "src/App.jsx"] ++ [js "src/Nav.jsx"]) in
     fst r = fst r'
     /\ no_sleeps (snd r) = no_sleeps (snd r')
     /\ ((1 < length ([js "src/App.jsx"] ++ [js "src/Nav.jsx"]))%nat -> snd r = snd r')
     /\ ~ In (js "src/Old.jsx") (map fst (own_entries (master (fst r))))
     /\ ~ In (ECall (js "src/Old.jsx")) (snd r).
Proof.
  assert (H : fs_exists (only (js "src/App.jsx")) (js "src/Old.jsx") = false)
    by (vm_compute; reflexivity).
  split; [exact H|].
  exact (missing_skipped_run (only (js "src/App.jsx")) (fun _ code => code) answers_empty
           [js "src/App.jsx"] [js "src/Nav.jsx"] (js "src/Old.jsx") H).
Defined.

(** C5 counterexample: the missing identifier still counts in
    [FILES.length]: with ["Gone.jsx", "A.jsx"] the parsed ["A.jsx"] is
    followed by a 4000 ms sleep, with ["A.jsx"] alone it is not. *)
Lemma missing_counts_for_sleep :
  main_v1 (only (js "A.jsx")) answers_empty [js "Gone.jsx"; js "A.jsx"]
  = Finished [(js "A.jsx", JObj [])] [ECall (js "A.jsx"); ESleep 4000; EWriteArtifact]
  /\ main_v1 (only (js "A.jsx")) answers_empty [js "A.jsx"]
     = Finished [(js "A.jsx", JObj [])] [ECall (js "A.jsx"); EWriteArtifact].
Proof. split; vm_compute; reflexivity. Qed.

(** C6 (amended): the normalizer deletes every ["```json"], then every
    ["```"], trims and parses strictly, so no ["```"] is left in the text
    it parses.  A completion fenced by ["```"] around a backtick-free
    text [u] normalizes to the parse of [u] trimmed, after dropping a
    leading tag ["json"] only: any other tag (e.g. ["js"]) stays in the
    text that is parsed. *)
Theorem normalize_fenced (u : jsstr) :
  ~ In 96%N u ->
  normalize (ticks ++ u ++ ticks)
  = JSON_parse (js_trim (if starts_with json_word u then skipn 4 u else u))
  /\ (forall raw, normalize raw = JSON_parse (js_trim (strip_fences raw))
                  /\ occurs ticks (strip_fences raw) = false).
Proof.
  intro Hu; split.
  - unfold normalize; rewrite (strip_fences_fenced u Hu); reflexivity.
  - intro raw; split; [reflexivity | apply strip_ticks_no_ticks].
Qed.

Lemma normalize_fenced_witness :
  ~ In 96%N (nl ++ js "{}" ++ nl)
  /\ normalize (ticks ++ (nl ++ js "{}" ++ nl) ++ ticks)
     = JSON_parse (js_trim (if starts_with json_word (nl ++ js "{}" ++ nl)
                            then skipn 4 (nl ++ js "{}" ++ nl) else nl ++ js "{}" ++ nl))
  /\ (forall raw, normalize raw = JSON_parse (js_trim (strip_fences raw))
                  /\ occurs ticks (strip_fences raw) = false).
Proof.
  assert (H : ~ In 96%N (nl ++ js "{}" ++ nl))
    by (vm_compute; intros H; repeat (destruct H as [H|H]; [discriminate|]); exact H).
  split; [exact H | apply (normalize_fenced (nl ++ js "{}" ++ nl) H)].
Defined.

(** C6 counterexample: a completion fenced with the tag ["js"] around
    valid JSON does not normalize. *)
Lemma fence_with_js_tag :
  normalize (ticks ++ js "js" ++ nl ++ js "{}" ++ nl ++ ticks) = None
  /\ JSON_parse (js "{}") = Some (JObj []).
Proof. split; vm_compute; reflexivity. Qed.

(** C7: with no file argument both scripts exit with code 1 after the
    diagnostic, with no model call and no artifact written. *)
Theorem no_files_exit (fs : fs_model) (gen1 : nat -> jsstr -> reply)
  (ns : number_semantics) (gen2 : nat -> prompt_v2 -> reply) :
  main_v1 fs gen1 [] = Exited 1 [ENoFiles] /\ main_v2 ns fs gen2 [] = Exited 1 [ENoFiles].
Proof. split; reflexivity. Qed.

(** C8 (amended): step A (package.json) runs from the placeholder; if it
    throws, the context it reached is kept and the warning printed.
    Otherwise, when README.md exists, the context grows by
    ["\n\nREADME Summary:\n"], the first 3000 characters of the README and
    ["..."], whatever the README's length, and a README that cannot be read
    keeps the context reached and prints the warning.  Without package.json
    and README.md the context is the placeholder
    ["Unknown React Application"]. *)
Theorem context_readme_rule (ns : number_semantics) (fs : fs_model) :
  build_context ns fs =
    match read_package ns fs placeholder with
    | (None, c) => (c, true)
    | (Some _, c) =>
        if fs_exists fs readme_md then
          match fs_read fs readme_md with
          | Some r => (c ++ nl ++ nl ++ js "README Summary:" ++ nl
                       ++ firstn 3000 r ++ js "...", false)
          | None => (c, true)
          end
        else (c, false)
    end
  /\ (fs_exists fs package_json = false -> fs_exists fs readme_md = false ->
      build_context ns fs = (placeholder, false)).
Proof.
  split.
  - unfold build_context, bind at 1.
    destruct (read_package ns fs placeholder) as [[[]|] c]; [|reflexivity].
    unfold read_readme; destruct (fs_exists fs readme_md); [|reflexivity].
    destruct (fs_read fs readme_md); reflexivity.
  - intros Hp Hr; unfold build_context, read_package, read_readme; rewrite Hp, Hr.
    reflexivity.
Qed.

(** A repository with both a package.json and a README. *)
Definition package_and_readme : fs_model :=
  {| fs_exists := fun p => jseqb p package_json || jseqb p readme_md;
     fs_read := fun p => if jseqb p package_json then Some (jq "{'name': 'shop'}")
                         else if jseqb p readme_md then Some (js "# Shop") else None |}.

Lemma context_readme_rule_witness :
  read_package lexeme_numbers package_and_readme placeholder
  = (Some tt, js "Project Name: " ++ dq ++ js "shop" ++ dq ++ nl ++ js "Description: "
              ++ dq ++ dq ++ nl ++ js "Key Libraries: ")
  /\ build_context lexeme_numbers package_and_readme
     = (js "Project Name: " ++ dq ++ js "shop" ++ dq ++ nl ++ js "Description: "
        ++ dq ++ dq ++ nl ++ js "Key Libraries: "
        ++ nl ++ nl ++ js "README Summary:" ++ nl ++ firstn 3000 (js "# Shop") ++ js "...", false)
  /\ (fs_exists package_and_readme package_json = false ->
      fs_exists package_and_readme readme_md = false ->
      build_context lexeme_numbers package_and_readme = (placeholder, false)).
Proof.
  assert (Hp : read_package lexeme_numbers package_and_readme placeholder
               = (Some tt, js "Project Name: " ++ dq ++ js "shop" ++ dq ++ nl ++ js "Description: "
                           ++ dq ++ dq ++ nl ++ js "Key Libraries: "))
    by (vm_compute; reflexivity).
  destruct (context_readme_rule lexeme_numbers package_and_readme) as [H1 H2].
  split; [exact Hp | split; [|exact H2]].
  rewrite H1, Hp; vm_compute; reflexivity.
Defined.

(** C8 counterexample: a two-character README is still marked with
    ["..."]. *)
Lemma short_readme_marked :
  fst (build_context lexeme_numbers (readme_only (js "hi")))
  = placeholder ++ nl ++ nl ++ js "README Summary:" ++ nl ++ js "hi" ++ js "..."
  /\ fst (build_context lexeme_numbers (readme_only (js "hi")))
     <> placeholder ++ nl ++ nl ++ js "README Summary:" ++ nl ++ js "hi".
Proof. split; vm_compute; [reflexivity | discriminate]. Qed.

(** C9: stripping the fence markers leaves a text with no ["```"] (hence
    no ["```json"]) unchanged. *)
Theorem strip_fences_fence_free (s : jsstr) :
  occurs ticks s = false -> strip_fences s = s.
Proof.
  intro H; unfold strip_fences.
  rewrite strip_json_fence_id by (apply occurs_json_ticks; exact H).
  apply strip_ticks_id; exact H.
Qed.

Lemma strip_fences_fence_free_witness :
  occurs ticks (jq "{'props':{},'wrappers':{'router':true}}") = false
  /\ strip_fences (jq "{'props':{},'wrappers':{'router':true}}")
     = jq "{'props':{},'wrappers':{'router':true}}".
Proof.
  assert (H : occurs ticks (jq "{'props':{},'wrappers':{'router':true}}") = false)
    by (vm_compute; reflexivity).
  split; [exact H | apply (strip_fences_fence_free _ H)].
Defined.

(** C10: the markers are deleted everywhere in the completion (no
    ["```"] nor ["```json"] is left), so the valid JSON
    [{"a":"```"}] normalizes to an object whose "a" is the empty string, not to its own parse. *)
Theorem strip_fences_global :
  (forall s, occurs ticks (strip_fences s) = false
             /\ occurs json_fence (strip_fences s) = false)
  /\ JSON_parse (jq "{'a':'```'}") = Some (JObj [(js "a", JStr ticks)])
  /\ normalize (jq "{'a':'```'}") = Some (JObj [(js "a", JStr [])])
  /\ JObj [(js "a", JStr ticks)] <> JObj [(js "a", JStr [])].
Proof.
  split; [|split; [vm_compute; reflexivity | split; [vm_compute; reflexivity | discriminate]]].
  intro s; assert (H : occurs ticks (strip_fences s) = false) by apply strip_ticks_no_ticks.
  split; [exact H | apply occurs_json_ticks, H].
Qed.

End Claims.

(* ================================================================== *)
(** * Further facts about a run *)

Module RunFacts.
Import JsString Json Normalizer JsObject Batch Context ObjectFacts AccumFacts LoopFacts.

(** The identifier exists and [readFileSync] returns its content. *)
Definition readable (fs : fs_model) (p : jsstr) : bool :=
  fs_exists fs p && match fs_read fs p with Some _ => true | None => false end.

Definition is_call (e : event) : bool := match e with ECall _ => true | _ => false end.

(** A value the loop may store: the fallback or a normalized completion of
    one of the calls made. *)
Definition stored_value {P : Type} (gen : nat -> P -> reply) (ncalls : nat) (v : json) : Prop :=
  v = fallback
  \/ exists i x raw, (i < ncalls)%nat /\ gen i x = Reply raw /\ normalize raw = Some v.

Section Loop.
Context {P : Type} (fs : fs_model) (mk : jsstr -> jsstr -> P) (n : nat) (gen : nat -> P -> reply).

Lemma analyze_file_calls st p :
  calls (fst (analyze_file fs mk gen n st p)) = (calls st + if readable fs p then 1 else 0)%nat
  /\ length (filter is_call (snd (analyze_file fs mk gen n st p)))
     = if readable fs p then 1%nat else 0%nat.
Proof.
  unfold analyze_file, readable.
  destruct (fs_exists fs p); cbn; [|split; lia].
  destruct (fs_read fs p) as [code|]; cbn; [|split; lia].
  destruct (gen (calls st) (mk p code)) as [raw|msg]; [destruct (normalize raw)|]; cbn;
    [destruct n as [|[|n']]|..]; cbn; split; lia.
Qed.

Lemma analyze_loop_calls files : forall st,
  calls (fst (analyze_loop fs mk gen n st files))
    = (calls st + length (filter (readable fs) files))%nat
  /\ length (filter is_call (snd (analyze_loop fs mk gen n st files)))
     = length (filter (readable fs) files).
Proof.
  induction files as [|p r IH]; intro st; cbn; [split; lia|].
  destruct (analyze_file_calls st p) as [H1 H2].
  destruct (analyze_file fs mk gen n st p) as [st1 e1]; cbn in H1, H2.
  destruct (IH st1) as [H3 H4].
  destruct (analyze_loop fs mk gen n st1 r) as [st2 e2]; cbn in *.
  rewrite filter_app, length_app, H2, H4, H3, H1.
  destruct (readable fs p); cbn; split; lia.
Qed.

Lemma stored_value_mono ncalls ncalls' v :
  (ncalls <= ncalls')%nat -> stored_value gen ncalls v -> stored_value gen ncalls' v.
Proof.
  intros Hle [H|(i & x & raw & Hi & Hg & Hn)]; [left; exact H|].
  right; exists i, x, raw; repeat split; [lia | exact Hg | exact Hn].
Qed.

(** Every own value of the accumulator is a stored value. *)
Definition all_stored (ncalls : nat) (o : jsobj) : Prop :=
  forall k v, In (k, v) (own o) -> stored_value gen ncalls v.

Lemma define_own_In {A} (m : list (jsstr * A)) k v k' v' :
  In (k', v') (define_own m k v) -> In (k', v') m \/ v' = v.
Proof.
  induction m as [|[k1 v1] r IH]; cbn.
  - intros [H|[]]; injection H as _ ->; right; reflexivity.
  - destruct (jseqb k1 k); cbn.
    + intros [H|H]; [injection H as _ ->; right; reflexivity | left; right; exact H].
    + intros [H|H]; [left; left; exact H|]; destruct (IH H); [left; right|right]; assumption.
Qed.

Lemma js_set_stored ncalls o k v :
  all_stored ncalls o -> stored_value gen ncalls v -> all_stored ncalls (js_set o k v).
Proof.
  intros Ho Hv k' v' H; unfold js_set in H.
  destruct (negb (has_key k (own o)) && jseqb k proto_key
            && reaches_proto_accessor (proto_of o)).
  - destruct v; cbn in H; eapply Ho; exact H.
  - cbn in H; apply define_own_In in H as [H| ->]; [eapply Ho; exact H | exact Hv].
Qed.

Lemma analyze_file_stored st p :
  all_stored (calls st) (master st) ->
  all_stored (calls (fst (analyze_file fs mk gen n st p)))
             (master (fst (analyze_file fs mk gen n st p))).
Proof.
  intro H; unfold analyze_file.
  assert (Hf : forall c, stored_value gen c fallback) by (intro; left; reflexivity).
  assert (HS : all_stored (S (calls st)) (master st))
    by (intros k v Hk; apply (stored_value_mono (calls st)); [lia | eapply H; exact Hk]).
  destruct (fs_exists fs p); cbn; [|exact H].
  destruct (fs_read fs p) as [code|]; cbn; [|apply js_set_stored; auto].
  destruct (gen (calls st) (mk p code)) as [raw|msg] eqn:Eg;
    [destruct (normalize raw) as [v|] eqn:En|]; cbn; apply js_set_stored; auto.
  right; exists (calls st), (mk p code), raw; repeat split; [lia | exact Eg | exact En].
Qed.

Lemma analyze_loop_stored files : forall st,
  all_stored (calls st) (master st) ->
  all_stored (calls (fst (analyze_loop fs mk gen n st files)))
             (master (fst (analyze_loop fs mk gen n st files))).
Proof.
  induction files as [|p r IH]; intros st H; cbn; [exact H|].
  pose proof (analyze_file_stored st p H) as H1.
  destruct (analyze_file fs mk gen n st p) as [st1 e1]; cbn in H1.
  specialize (IH st1 H1).
  destruct (analyze_loop fs mk gen n st1 r) as [st2 e2]; exact IH.
Qed.

Lemma analyze_loop_nodup files : forall st,
  NoDup (map fst (own (master st))) ->
  NoDup (map fst (own (master (fst (analyze_loop fs mk gen n st files))))).
Proof.
  induction files as [|p r IH]; intros st H; cbn; [exact H|].
  assert (H1 : NoDup (map fst (own (master (fst (analyze_file fs mk gen n st p)))))).
  { unfold analyze_file; destruct (fs_exists fs p); cbn; [|exact H].
    destruct (fs_read fs p) as [code|]; cbn; [|apply js_set_nodup, H].
    destruct (gen (calls st) (mk p code)) as [raw|msg];
      [destruct (normalize raw)|]; cbn; apply js_set_nodup, H. }
  destruct (analyze_file fs mk gen n st p) as [st1 e1]; cbn in H1.
  specialize (IH st1 H1).
  destruct (analyze_loop fs mk gen n st1 r) as [st2 e2]; exact IH.
Qed.

End Loop.

(** Two prompt builders and models that answer alike give the same run. *)
Lemma analyze_loop_same_answers {P1 P2 : Type} fs (mk1 : jsstr -> jsstr -> P1)
  (mk2 : jsstr -> jsstr -> P2) gen1 gen2 n files :
  (forall i p code, gen1 i (mk1 p code) = gen2 i (mk2 p code)) ->
  forall st, analyze_loop fs mk1 gen1 n st files = analyze_loop fs mk2 gen2 n st files.
Proof.
  intro Hg; induction files as [|p r IH]; intro st; cbn; [reflexivity|].
  replace (analyze_file fs mk1 gen1 n st p) with (analyze_file fs mk2 gen2 n st p).
  - destruct (analyze_file fs mk2 gen2 n st p) as [st1 e1]; rewrite IH; reflexivity.
  - unfold analyze_file; destruct (fs_exists fs p); cbn; [|reflexivity].
    destruct (fs_read fs p) as [code|]; [rewrite Hg|]; reflexivity.
Qed.

End RunFacts.

(* ================================================================== *)
(** * Facts about the string helpers *)

Module TextFacts.
Import JsString.

(** Splits a goal whose match on a positive number is stuck until it
    reduces. *)
Ltac split_positive :=
  repeat match goal with
         | |- context [match ?q with xI _ => _ | xO _ => _ | xH => _ end] =>
             is_var q; destruct q
         end.

Lemma take_until_slash_cons c r :
  c <> 47%N -> take_until_slash (c :: r) = c :: take_until_slash r.
Proof.
  intro Hc; destruct c as [|p]; [reflexivity|].
  cbn; split_positive; try reflexivity; exfalso; apply Hc; reflexivity.
Qed.

Lemma drop_slashes_nonslash c r : c <> 47%N -> drop_slashes (c :: r) = c :: r.
Proof.
  intro Hc; destruct c as [|p]; [reflexivity|].
  cbn; split_positive; try reflexivity; exfalso; apply Hc; reflexivity.
Qed.

Lemma take_until_slash_no_slash s : ~ In 47%N (take_until_slash s).
Proof.
  induction s as [|c r IH]; [cbn; tauto|].
  destruct (N.eq_dec c 47) as [->|Hc]; [cbn; tauto|].
  rewrite take_until_slash_cons by exact Hc.
  intros [H|H]; [congruence | tauto].
Qed.

Lemma take_until_slash_app u v : ~ In 47%N u -> take_until_slash (u ++ 47%N :: v) = u.
Proof.
  induction u as [|c r IH]; intro Hu; [reflexivity|].
  cbn [app]; rewrite take_until_slash_cons by (intro; apply Hu; left; auto).
  rewrite IH by (intro; apply Hu; right; assumption); reflexivity.
Qed.

Lemma take_until_slash_all u : ~ In 47%N u -> take_until_slash u = u.
Proof.
  induction u as [|c r IH]; intro Hu; [reflexivity|].
  rewrite take_until_slash_cons by (intro; apply Hu; left; auto).
  rewrite IH by (intro; apply Hu; right; assumption); reflexivity.
Qed.

Lemma drop_slashes_repeat k s : drop_slashes (repeat 47%N k ++ s) = drop_slashes s.
Proof. induction k as [|k IH]; [reflexivity | exact IH]. Qed.

Lemma trim_start_split s :
  exists a, s = a ++ trim_start s /\ Forall (fun c => is_js_space c = true) a
  /\ match trim_start s with [] => True | c :: _ => is_js_space c = false end.
Proof.
  induction s as [|c r IH]; [exists []; repeat constructor|].
  cbn; destruct (is_js_space c) eqn:E.
  - destruct IH as (a & H1 & H2 & H3); exists (c :: a); split; [cbn; f_equal; exact H1|].
    split; [constructor; assumption | exact H3].
  - exists []; split; [reflexivity | split; [constructor | exact E]].
Qed.

Lemma ends_with_iff suffix s : ends_with suffix s = true <-> exists p, s = p ++ suffix.
Proof.
  unfold ends_with; rewrite andb_true_iff, Nat.leb_le, jseqb_eq; split.
  - intros [Hl He]; exists (firstn (length s - length suffix) s).
    rewrite <- He at 2; symmetry; apply firstn_skipn.
  - intros [p ->]; rewrite length_app; split; [lia|].
    replace (length p + length suffix - length suffix)%nat with (length p) by lia.
    rewrite skipn_app, skipn_all, Nat.sub_diag; reflexivity.
Qed.

End TextFacts.

(* ================================================================== *)
(** ** [JSON.stringify(masterAnalysis, null, 2)] (line 105 / line 64) *)

Module Stringify.
Import JsString Json JsObject Batch Context.

(** A lowercase hexadecimal digit, for [d < 16]. *)
Definition hex_digit (d : N) : N := if (d <? 10)%N then (48 + d)%N else (87 + d)%N.

(** [UnicodeEscape(c)]: a backslash, ["u"] and the four lowercase
    hexadecimal digits of the code unit. *)
Definition unicode_escape (c : N) : jsstr :=
  [92; 117; hex_digit (c / 4096 mod 16); hex_digit (c / 256 mod 16);
   hex_digit (c / 16 mod 16); hex_digit (c mod 16)]%N.

(** The JSON single character escape sequences (backspace, tab, line
    feed, form feed, carriage return, quotation mark, reverse solidus). *)
Definition single_escape (c : N) : option N :=
  if (c =? 8)%N then Some 98%N
  else if (c =? 9)%N then Some 116%N
  else if (c =? 10)%N then Some 110%N
  else if (c =? 12)%N then Some 102%N
  else if (c =? 13)%N then Some 114%N
  else if (c =? 34)%N then Some 34%N
  else if (c =? 92)%N then Some 92%N
  else None.

Definition is_leading_surrogate (c : N) : bool := ((55296 <=? c) && (c <=? 56319))%N.
Definition is_trailing_surrogate (c : N) : bool := ((56320 <=? c) && (c <=? 57343))%N.

(** The text between the quotes of [QuoteJSONString(s)].  The string is
    read as code points: a leading surrogate followed by a trailing one is
    a single code point, copied; a lone surrogate is escaped. *)
Fixpoint quote_units (s : jsstr) : jsstr :=
  match s with
  | [] => []
  | c :: r =>
      match single_escape c with
      | Some e => 92%N :: e :: quote_units r
      | None =>
          if (c <? 32)%N then unicode_escape c ++ quote_units r
          else if is_leading_surrogate c then
            match r with
            | d :: r' => if is_trailing_surrogate d then c :: d :: quote_units r'
                         else unicode_escape c ++ quote_units r
            | [] => unicode_escape c
            end
          else if is_trailing_surrogate c then unicode_escape c ++ quote_units r
          else c :: quote_units r
      end
  end.

(** [QuoteJSONString(s)] *)
Definition quote (s : jsstr) : jsstr := 34%N :: quote_units s ++ [34%N].

Section Serialize.
Variable ns : number_semantics.
(** Whether the double a number lexeme denotes is finite (a lexeme such
    as [1e400] denotes infinity). *)
Variable num_finite : jsstr -> bool.

(** The [space] argument [2]. *)
Definition gap : jsstr := [32; 32]%N.

(** [SerializeJSONProperty] of a JSON value, at the given indentation.
    No value has a callable [toJSON] and there is no replacer.  An object
    is serialized in the order of its own keys ([EnumerableOwnProperties]);
    serializing the members first and ordering them after is the same,
    serialization having no effect. *)
Fixpoint serialize (indent : jsstr) (v : json) {struct v} : jsstr :=
  match v with
  | JNull => js "null"
  | JBool true => js "true"
  | JBool false => js "false"
  | JNum l => if num_finite l then num_to_string ns l else js "null"
  | JStr s => quote s
  | JArr items =>
      let stepback := indent in
      let indent' := indent ++ gap in
      let fix go (l : list json) : list jsstr :=
        match l with
        | [] => []
        | x :: r => serialize indent' x :: go r
        end in
      match go items with
      | [] => js "[]"
      | partial =>
          [91; 10]%N ++ indent' ++ join ([44; 10]%N ++ indent') partial
          ++ [10]%N ++ stepback ++ [93]%N
      end
  | JObj m =>
      let stepback := indent in
      let indent' := indent ++ gap in
      let fix go (l : list (jsstr * json)) : list (jsstr * jsstr) :=
        match l with
        | [] => []
        | (k, x) :: r => (k, serialize indent' x) :: go r
        end in
      match own_order (go m) with
      | [] => js "{}"
      | entries =>
          let partial := map (fun e => quote (fst e) ++ [58; 32]%N ++ snd e) entries in
          [123; 10]%N ++ indent' ++ join ([44; 10]%N ++ indent') partial
          ++ [10]%N ++ stepback ++ [125]%N
      end
  end.

(** [JSON.stringify(v, null, 2)] *)
Definition JSON_stringify (v : json) : jsstr := serialize [] v.

(** The text written to [./analysis.json]: the accumulator is an ordinary
    object, serialized through its own properties. *)
Definition artifact_text (o : jsobj) : jsstr := JSON_stringify (JObj (own o)).

End Serialize.

End Stringify.

(* ================================================================== *)
(** * Reading the artifact back *)

Module StringifyFacts.
Import JsString Json JsObject Batch Context ObjectFacts AccumFacts TextFacts Stringify.

Lemma pstring_raw c r :
  c <> 34%N -> c <> 92%N ->
  pstring (c :: r) = if (c <? 32)%N then None
                     else match pstring r with
                          | Some (x, r') => Some (c :: x, r')
                          | None => None
                          end.
Proof.
  intros H1 H2; destruct c as [|p]; [reflexivity|].
  cbn; split_positive; try reflexivity; exfalso; [apply H1 | apply H2]; reflexivity.
Qed.

Lemma hex_digit_val d : (d < 16)%N -> hex_val (hex_digit d) = Some d.
Proof.
  intro H; unfold hex_digit, hex_val.
  destruct (d <? 10)%N eqn:E.
  - apply N.ltb_lt in E.
    replace ((48 <=? 48 + d) && (48 + d <=? 57))%N with true
      by (symmetry; apply andb_true_iff; split; apply N.leb_le; lia).
    f_equal; lia.
  - apply N.ltb_ge in E.
    replace ((48 <=? 87 + d) && (87 + d <=? 57))%N with false
      by (symmetry; apply andb_false_iff; right; apply N.leb_gt; lia).
    replace ((65 <=? 87 + d) && (87 + d <=? 70))%N with false
      by (symmetry; apply andb_false_iff; right; apply N.leb_gt; lia).
    replace ((97 <=? 87 + d) && (87 + d <=? 102))%N with true
      by (symmetry; apply andb_true_iff; split; apply N.leb_le; lia).
    f_equal; lia.
Qed.

Lemma hex4_digits c :
  (c < 65536)%N ->
  hex4 (hex_digit (c / 4096 mod 16)) (hex_digit (c / 256 mod 16))
       (hex_digit (c / 16 mod 16)) (hex_digit (c mod 16)) = Some c.
Proof.
  intro H; unfold hex4.
  rewrite !hex_digit_val by (apply N.mod_lt; lia).
  f_equal.
  assert (E1 : (c / 256 = c / 16 / 16)%N) by (rewrite N.Div0.div_div; reflexivity).
  assert (E2 : (c / 4096 = c / 16 / 16 / 16)%N) by (rewrite !N.Div0.div_div; reflexivity).
  rewrite E1, E2.
  pose proof (N.div_mod c 16 ltac:(lia)).
  pose proof (N.div_mod (c / 16) 16 ltac:(lia)).
  pose proof (N.div_mod (c / 16 / 16) 16 ltac:(lia)).
  assert (c / 16 / 16 / 16 < 16)%N by (rewrite <- E2; apply N.Div0.div_lt_upper_bound; lia).
  rewrite (N.mod_small (c / 16 / 16 / 16)) by assumption.
  lia.
Qed.

Lemma unicode_escape_pstring c t x r' :
  (c < 65536)%N -> pstring t = Some (x, r') ->
  pstring (unicode_escape c ++ t) = Some (c :: x, r').
Proof.
  intros Hc Ht; unfold unicode_escape; cbn [app pstring].
  rewrite hex4_digits, Ht by exact Hc; reflexivity.
Qed.

Lemma single_escape_none c : single_escape c = None -> c <> 34%N /\ c <> 92%N.
Proof.
  unfold single_escape; intro H.
  repeat match type of H with
         | context [N.eqb c ?k] => destruct (N.eqb_spec c k); [discriminate|]
         end.
  split; assumption.
Qed.

Lemma pstring_quote_units s rest : pstring (quote_units s ++ 34%N :: rest) = Some (s, rest).
Proof.
  remember (length s) as n eqn:Hn; revert s Hn.
  induction n as [n IH] using lt_wf_ind; intros s Hn.
  destruct s as [|c r]; [reflexivity|].
  assert (IHr : pstring (quote_units r ++ 34%N :: rest) = Some (r, rest))
    by (apply (IH (length r)); [cbn in Hn; lia | reflexivity]).
  cbn [quote_units].
  destruct (single_escape c) as [e|] eqn:Hse.
  - unfold single_escape in Hse.
    repeat match type of Hse with
           | context [N.eqb c ?k] =>
               destruct (N.eqb_spec c k) as [->|];
               [injection Hse as <-; cbn [app pstring]; rewrite IHr; reflexivity|]
           end.
    discriminate.
  - apply single_escape_none in Hse as [H34 H92].
    destruct (c <? 32)%N eqn:Hlt.
    + rewrite <- app_assoc; apply unicode_escape_pstring; [apply N.ltb_lt in Hlt; lia | exact IHr].
    + destruct (is_leading_surrogate c) eqn:Hl.
      * assert (Hc : (c < 65536)%N)
          by (unfold is_leading_surrogate in Hl; apply andb_true_iff in Hl as [_ Hl];
              apply N.leb_le in Hl; lia).
        destruct r as [|d r'].
        -- apply unicode_escape_pstring; [exact Hc | reflexivity].
        -- destruct (is_trailing_surrogate d) eqn:Ht.
           ++ assert (Hd : (56320 <= d)%N)
                by (unfold is_trailing_surrogate in Ht; apply andb_true_iff in Ht as [Ht _];
                    apply N.leb_le in Ht; exact Ht).
              assert (IHr' : pstring (quote_units r' ++ 34%N :: rest) = Some (r', rest))
                by (apply (IH (length r')); [cbn in Hn; lia | reflexivity]).
              cbn [app]; rewrite pstring_raw, Hlt by assumption.
              rewrite pstring_raw by lia.
              replace (d <? 32)%N with false by (symmetry; apply N.ltb_ge; lia).
              rewrite IHr'; reflexivity.
           ++ rewrite <- app_assoc; apply unicode_escape_pstring; [exact Hc | exact IHr].
      * destruct (is_trailing_surrogate c) eqn:Ht.
        -- rewrite <- app_assoc; apply unicode_escape_pstring; [|exact IHr].
           unfold is_trailing_surrogate in Ht; apply andb_true_iff in Ht as [_ Ht];
             apply N.leb_le in Ht; lia.
        -- cbn [app]; rewrite pstring_raw, Hlt, IHr by assumption; reflexivity.
Qed.

(** The stages of [pnumber], as written there. *)
Definition sign_part (s : jsstr) : jsstr * jsstr :=
  match s with 45%N :: r => ([45%N], r) | _ => ([], s) end.
Definition int_part (s1 : jsstr) : option (jsstr * jsstr) :=
  match s1 with
  | 48%N :: r => Some ([48%N], r)
  | c :: r => if ((49 <=? c) && (c <=? 57))%N
              then let (d, r') := digits r in Some (c :: d, r')
              else None
  | [] => None
  end.
Definition frac_part (s2 : jsstr) : option (jsstr * jsstr) :=
  match s2 with
  | 46%N :: r => match digits1 r with
                 | Some (d, r') => Some (46%N :: d, r')
                 | None => None
                 end
  | _ => Some ([], s2)
  end.
Definition exp_sign_part (r : jsstr) : jsstr * jsstr :=
  match r with
  | 43%N :: r1 => ([43%N], r1)
  | 45%N :: r1 => ([45%N], r1)
  | _ => ([], r)
  end.
Definition exp_part (s3 : jsstr) : option (jsstr * jsstr) :=
  match s3 with
  | e :: r =>
      if (N.eqb e 101 || N.eqb e 69)%N then
        let '(sg, r1) := exp_sign_part r in
        match digits1 r1 with
        | Some (d, r') => Some (e :: sg ++ d, r')
        | None => None
        end
      else Some ([], s3)
  | [] => Some ([], s3)
  end.

Lemma pnumber_parts s :
  pnumber s =
  let '(sign, s1) := sign_part s in
  match int_part s1 with
  | None => None
  | Some (i, s2) =>
      match frac_part s2 with
      | None => None
      | Some (f, s3) =>
          match exp_part s3 with
          | None => None
          | Some (x, s4) => Some (sign ++ i ++ f ++ x, s4)
          end
      end
  end.
Proof. reflexivity. Qed.

Lemma sign_part_cons c r :
  sign_part (c :: r) = if (c =? 45)%N then ([45%N], r) else ([], c :: r).
Proof. destruct c as [|p]; [reflexivity|]; cbn; split_positive; reflexivity. Qed.

Lemma int_part_cons c r :
  int_part (c :: r) =
  if (c =? 48)%N then Some ([48%N], r)
  else if ((49 <=? c) && (c <=? 57))%N
       then let (d, r') := digits r in Some (c :: d, r')
       else None.
Proof. destruct c as [|p]; [reflexivity|]; cbn; split_positive; reflexivity. Qed.

Lemma frac_part_cons c r :
  frac_part (c :: r) =
  if (c =? 46)%N then match digits1 r with
                      | Some (d, r') => Some (46%N :: d, r')
                      | None => None
                      end
  else Some ([], c :: r).
Proof. destruct c as [|p]; [reflexivity|]; cbn; split_positive; reflexivity. Qed.

Lemma exp_sign_part_cons c r :
  exp_sign_part (c :: r) =
  if (c =? 43)%N then ([43%N], r) else if (c =? 45)%N then ([45%N], r) else ([], c :: r).
Proof. destruct c as [|p]; [reflexivity|]; cbn; split_positive; reflexivity. Qed.

(** A text that may follow a value inside the output of [serialize]:
    the end, a comma or a line feed. *)
Definition stop (r : jsstr) : Prop :=
  match r with [] => True | c :: _ => c = 44%N \/ c = 10%N end.

Definition shift (r : jsstr) (p : option (jsstr * jsstr)) : option (jsstr * jsstr) :=
  match p with Some (a, u) => Some (a, u ++ r) | None => None end.

Section Stop.
Variable r : jsstr.
Hypothesis Hr : stop r.

Ltac stop_cases := destruct r as [|c0 r0]; [|destruct Hr as [->| ->]]; reflexivity.

Lemma digits_app t : digits (t ++ r) = let (d, u) := digits t in (d, u ++ r).
Proof.
  induction t as [|c t IH]; [stop_cases|].
  cbn [app digits]; destruct (is_digit c); [|reflexivity].
  rewrite IH; destruct (digits t); reflexivity.
Qed.

Lemma digits1_app t : digits1 (t ++ r) = shift r (digits1 t).
Proof.
  unfold digits1; rewrite digits_app; destruct (digits t) as [[|d0 d] u]; reflexivity.
Qed.

Lemma sign_part_app t : sign_part (t ++ r) = let (a, u) := sign_part t in (a, u ++ r).
Proof.
  destruct t as [|c t]; [stop_cases|].
  cbn [app]; rewrite !sign_part_cons; destruct (c =? 45)%N; reflexivity.
Qed.

Lemma int_part_app t : int_part (t ++ r) = shift r (int_part t).
Proof.
  destruct t as [|c t]; [stop_cases|].
  cbn [app]; rewrite !int_part_cons; destruct (c =? 48)%N; [reflexivity|].
  destruct ((49 <=? c) && (c <=? 57))%N; [|reflexivity].
  rewrite digits_app; destruct (digits t); reflexivity.
Qed.

Lemma frac_part_app t : frac_part (t ++ r) = shift r (frac_part t).
Proof.
  destruct t as [|c t]; [stop_cases|].
  cbn [app]; rewrite !frac_part_cons; destruct (c =? 46)%N; [|reflexivity].
  rewrite digits1_app; destruct (digits1 t) as [[d u]|]; reflexivity.
Qed.

Lemma exp_sign_part_app t :
  exp_sign_part (t ++ r) = let (a, u) := exp_sign_part t in (a, u ++ r).
Proof.
  destruct t as [|c t]; [stop_cases|].
  cbn [app]; rewrite !exp_sign_part_cons.
  destruct (c =? 43)%N; [|destruct (c =? 45)%N]; reflexivity.
Qed.

Lemma exp_part_app t : exp_part (t ++ r) = shift r (exp_part t).
Proof.
  destruct t as [|e t]; [stop_cases|].
  cbn [app]; unfold exp_part; destruct (N.eqb e 101 || N.eqb e 69)%N; [|reflexivity].
  rewrite exp_sign_part_app; destruct (exp_sign_part t) as [sg r1].
  rewrite digits1_app; destruct (digits1 r1) as [[d u]|]; reflexivity.
Qed.

Lemma pnumber_app t : pnumber (t ++ r) = shift r (pnumber t).
Proof.
  rewrite !pnumber_parts, sign_part_app; destruct (sign_part t) as [sg s1].
  rewrite int_part_app; destruct (int_part s1) as [[i s2]|]; [|reflexivity]; cbn [shift].
  rewrite frac_part_app; destruct (frac_part s2) as [[f s3]|]; [|reflexivity]; cbn [shift].
  rewrite exp_part_app; destruct (exp_part s3) as [[x s4]|]; reflexivity.
Qed.

End Stop.

Lemma pnumber_head x y u :
  pnumber x = Some (y, u) ->
  exists c t, x = c :: t /\ (c = 45%N \/ (48 <= c <= 57)%N).
Proof.
  rewrite pnumber_parts; destruct x as [|c t]; [discriminate|].
  intro H; exists c, t; split; [reflexivity|].
  destruct (N.eqb_spec c 45) as [->|H45]; [left; reflexivity|right].
  rewrite sign_part_cons in H; apply N.eqb_neq in H45; rewrite H45, int_part_cons in H.
  destruct (N.eqb_spec c 48) as [->|_]; [lia|].
  destruct ((49 <=? c) && (c <=? 57))%N eqn:E; [|discriminate].
  apply andb_true_iff in E as [E1 E2]; apply N.leb_le in E1, E2; lia.
Qed.

Lemma is_json_ws_true c : is_json_ws c = true -> c = 9%N \/ c = 10%N \/ c = 13%N \/ c = 32%N.
Proof. destruct c as [|p]; cbn; [discriminate|]; split_positive; intro H; try discriminate; lia. Qed.

Lemma skip_ws_app w s : Forall (fun c => is_json_ws c = true) w -> skip_ws (w ++ s) = skip_ws s.
Proof. induction 1 as [|c w Hc _ IH]; [reflexivity|]; cbn [app skip_ws]; rewrite Hc; exact IH. Qed.

Lemma skip_ws_nonws c t : is_json_ws c = false -> skip_ws (c :: t) = c :: t.
Proof. intro H; cbn; rewrite H; reflexivity. Qed.

Lemma pvalue_ws f w s :
  Forall (fun c => is_json_ws c = true) w -> pvalue f (w ++ s) = pvalue f s.
Proof. intro H; destruct f; [reflexivity|]; cbn [pvalue]; rewrite skip_ws_app by exact H; reflexivity. Qed.

Lemma pvalue_number f x rest :
  pnumber x = Some (x, []) -> stop rest -> pvalue (S f) (x ++ rest) = Some (JNum x, rest).
Proof.
  intros Hx Hr; pose proof (pnumber_app rest Hr x) as E; rewrite Hx in E; cbn [shift app] in E.
  destruct (pnumber_head _ _ _ Hx) as (c & t & -> & Hc).
  assert (c = 45%N \/ c = 48%N \/ c = 49%N \/ c = 50%N \/ c = 51%N \/ c = 52%N \/ c = 53%N
          \/ c = 54%N \/ c = 55%N \/ c = 56%N \/ c = 57%N) as Hcs by lia.
  cbn [app] in E |- *.
  repeat destruct Hcs as [->|Hcs]; try (subst c);
    cbn - [pnumber]; rewrite E; reflexivity.
Qed.

Lemma pvalue_arr f r :
  hd_error (skip_ws r) <> Some 93%N -> pvalue (S f) (91%N :: r) = pelems f r [].
Proof.
  intro H; cbn [pvalue skip_ws is_json_ws].
  destruct (skip_ws r) as [|c t]; [reflexivity|].
  destruct c as [|p]; [reflexivity|]; split_positive; try reflexivity.
  exfalso; apply H; reflexivity.
Qed.

Lemma pvalue_obj f r :
  hd_error (skip_ws r) <> Some 125%N -> pvalue (S f) (123%N :: r) = pmembers f r [].
Proof.
  intro H; cbn [pvalue skip_ws is_json_ws].
  destruct (skip_ws r) as [|c t]; [reflexivity|].
  destruct c as [|p]; [reflexivity|]; split_positive; try reflexivity.
  exfalso; apply H; reflexivity.
Qed.

Section JsonInd.
Variable Q : json -> Prop.
Hypothesis HQnull : Q JNull.
Hypothesis HQbool : forall b, Q (JBool b).
Hypothesis HQnum : forall l, Q (JNum l).
Hypothesis HQstr : forall s, Q (JStr s).
Hypothesis HQarr : forall items, Forall Q items -> Q (JArr items).
Hypothesis HQobj : forall m, Forall (fun e => Q (snd e)) m -> Q (JObj m).

Fixpoint json_ind' (v : json) : Q v :=
  match v with
  | JNull => HQnull
  | JBool b => HQbool b
  | JNum l => HQnum l
  | JStr s => HQstr s
  | JArr items =>
      HQarr items
        ((fix go (l : list json) : Forall Q l :=
            match l with
            | [] => Forall_nil Q
            | x :: r => Forall_cons x (json_ind' x) (go r)
            end) items)
  | JObj m =>
      HQobj m
        ((fix go (l : list (jsstr * json)) : Forall (fun e => Q (snd e)) l :=
            match l with
            | [] => Forall_nil _
            | (k, x) :: r => Forall_cons (k, x) (json_ind' x) (go r)
            end) m)
  end.
End JsonInd.

Fixpoint keys_distinct (l : list jsstr) : bool :=
  match l with
  | [] => true
  | k :: r => negb (existsb (jseqb k) r) && keys_distinct r
  end.

(** Every object inside the value has distinct keys (as every JS object). *)
Fixpoint well_keyed (v : json) : bool :=
  match v with
  | JArr items =>
      (fix go (l : list json) : bool :=
         match l with [] => true | x :: r => well_keyed x && go r end) items
  | JObj m =>
      keys_distinct (map fst m)
      && (fix go (l : list (jsstr * json)) : bool :=
            match l with [] => true | (_, x) :: r => well_keyed x && go r end) m
  | _ => true
  end.

(** Nodes of a value, weighting each array element and member by one. *)
Fixpoint size (v : json) : nat :=
  match v with
  | JArr items =>
      S ((fix go (l : list json) : nat :=
            match l with [] => O | x :: r => S (size x) + go r end) items)
  | JObj m =>
      S ((fix go (l : list (jsstr * json)) : nat :=
            match l with [] => O | (_, x) :: r => S (size x) + go r end) m)
  | _ => 1
  end.

Lemma keys_distinct_NoDup l : keys_distinct l = true <-> NoDup l.
Proof.
  induction l as [|k r IH]; cbn; [split; [constructor | reflexivity]|].
  rewrite andb_true_iff, negb_true_iff, IH; split.
  - intros [H1 H2]; constructor; [|exact H2].
    intro H; apply (existsb_jseqb k r) in H; congruence.
  - intro H; inversion H as [|x l Hn Hnd]; subst; split; [|exact Hnd].
    destruct (existsb (jseqb k) r) eqn:E; [|reflexivity].
    apply existsb_jseqb in E; contradiction.
Qed.

Lemma well_keyed_arr items : well_keyed (JArr items) = forallb well_keyed items.
Proof. induction items as [|x r IH]; [reflexivity|]; cbn in *; rewrite IH; reflexivity. Qed.

Lemma well_keyed_obj m :
  well_keyed (JObj m) = keys_distinct (map fst m) && forallb (fun e => well_keyed (snd e)) m.
Proof.
  cbn [well_keyed]; f_equal.
  induction m as [|[k x] r IH]; [reflexivity|]; cbn in *; rewrite IH; reflexivity.
Qed.

Lemma size_arr items : size (JArr items) = S (list_sum (map (fun x => S (size x)) items)).
Proof.
  cbn [size]; f_equal; induction items as [|x r IH]; [reflexivity|]; cbn in *; rewrite IH; reflexivity.
Qed.

Lemma size_obj m : size (JObj m) = S (list_sum (map (fun e => S (size (snd e))) m)).
Proof.
  cbn [size]; f_equal; induction m as [|[k x] r IH]; [reflexivity|]; cbn in *; rewrite IH; reflexivity.
Qed.

Lemma sort_by_index_map {A B} (g : A -> B) (l : list (jsstr * A)) :
  sort_by_index (map (fun e => (fst e, g (snd e))) l)
  = map (fun e => (fst e, g (snd e))) (sort_by_index l).
Proof.
  induction l as [|e r IH]; [reflexivity|]; cbn [map sort_by_index]; rewrite IH.
  generalize (sort_by_index r) as s; intro s.
  induction s as [|e' s IHs]; [reflexivity|]; cbn [map insert_by_index fst].
  destruct (idx_of (fst e) <=? idx_of (fst e'))%N; [reflexivity|].
  cbn [map]; rewrite IHs; reflexivity.
Qed.

Lemma own_order_map {A B} (g : A -> B) (m : list (jsstr * A)) :
  own_order (map (fun e => (fst e, g (snd e))) m) = map (fun e => (fst e, g (snd e))) (own_order m).
Proof.
  unfold own_order; rewrite !filter_map_swap, map_app, <- sort_by_index_map; reflexivity.
Qed.

Section Canon.
Variable ns : number_semantics.
Variable num_finite : jsstr -> bool.

(** The value [JSON.parse] reads back from [JSON.stringify(v)]: numbers
    become the text they print as ([null] when not finite), object
    members come in property order. *)
Fixpoint canon (v : json) : json :=
  match v with
  | JNum l => if num_finite l then JNum (num_to_string ns l) else JNull
  | JArr items =>
      JArr ((fix go (l : list json) : list json :=
               match l with [] => [] | x :: r => canon x :: go r end) items)
  | JObj m =>
      JObj (own_order ((fix go (l : list (jsstr * json)) : list (jsstr * json) :=
                          match l with [] => [] | (k, x) :: r => (k, canon x) :: go r end) m))
  | _ => v
  end.

Lemma canon_arr items : canon (JArr items) = JArr (map canon items).
Proof. reflexivity. Qed.

Lemma canon_obj m :
  canon (JObj m) = JObj (map (fun e => (fst e, canon (snd e))) (own_order m)).
Proof.
  rewrite <- own_order_map; cbn [canon]; do 2 f_equal.
  induction m as [|[k x] r IH]; [reflexivity|]; cbn; rewrite IH; reflexivity.
Qed.

Lemma serialize_arr ind items :
  serialize ns num_finite ind (JArr items) =
  match map (serialize ns num_finite (ind ++ gap)) items with
  | [] => js "[]"
  | partial =>
      [91; 10]%N ++ (ind ++ gap) ++ join ([44; 10]%N ++ (ind ++ gap)) partial
      ++ [10]%N ++ ind ++ [93]%N
  end.
Proof.
  cbn [serialize].
  replace ((fix go (l : list json) : list jsstr :=
              match l with
              | [] => []
              | x :: r => serialize ns num_finite (ind ++ gap) x :: go r
              end) items)
    with (map (serialize ns num_finite (ind ++ gap)) items); [reflexivity|].
  induction items as [|x r IH]; [reflexivity|]; cbn; rewrite <- IH; reflexivity.
Qed.

Lemma serialize_obj ind m :
  serialize ns num_finite ind (JObj m) =
  match map (fun e => (fst e, serialize ns num_finite (ind ++ gap) (snd e))) (own_order m) with
  | [] => js "{}"
  | entries =>
      [123; 10]%N ++ (ind ++ gap)
      ++ join ([44; 10]%N ++ (ind ++ gap))
              (map (fun e => quote (fst e) ++ [58; 32]%N ++ snd e) entries)
      ++ [10]%N ++ ind ++ [125]%N
  end.
Proof.
  rewrite <- (own_order_map (serialize ns num_finite (ind ++ gap))).
  cbn [serialize].
  replace ((fix go (l : list (jsstr * json)) : list (jsstr * jsstr) :=
              match l with
              | [] => []
              | (k, x) :: r => (k, serialize ns num_finite (ind ++ gap) x) :: go r
              end) m)
    with (map (fun e => (fst e, serialize ns num_finite (ind ++ gap) (snd e))) m); [reflexivity|].
  induction m as [|[k x] r IH]; [reflexivity|]; cbn; rewrite <- IH; reflexivity.
Qed.

End Canon.

Lemma list_sum_map_le {A} (f g : A -> nat) l :
  Forall (fun x => f x <= g x)%nat l -> (list_sum (map f l) <= list_sum (map g l))%nat.
Proof. induction 1; cbn; unfold list_sum in *; lia. Qed.

Lemma join_length sep l :
  (list_sum (map (fun x => length x + length sep) l) <= length (join sep l) + length sep)%nat.
Proof.
  induction l as [|x r IH]; [cbn; lia|].
  destruct r as [|y r]; [cbn; lia|].
  change (join sep (x :: y :: r)) with (x ++ sep ++ join sep (y :: r)).
  cbn [map] in *; unfold list_sum in *; cbn [fold_right] in *; rewrite !length_app; lia.
Qed.

Lemma number_not_ws c : (c = 45%N \/ (48 <= c <= 57)%N) -> is_json_ws c = false.
Proof.
  intro H; destruct (is_json_ws c) eqn:E; [|reflexivity].
  apply is_json_ws_true in E; lia.
Qed.

Section Roundtrip.
Variable ns : number_semantics.
Variable num_finite : jsstr -> bool.
(** [Number::toString] of a finite number is a JSON number text. *)
Hypothesis Hnum : forall l, num_finite l = true ->
  pnumber (num_to_string ns l) = Some (num_to_string ns l, []).


Lemma serialize_head ind v :
  exists c t, serialize ns num_finite ind v = c :: t /\ is_json_ws c = false /\ c <> 93%N /\ c <> 125%N.
Proof.
  assert (Hc : forall c t s, s = c :: t -> is_json_ws c = false /\ c <> 93%N /\ c <> 125%N ->
                exists c t, s = c :: t /\ is_json_ws c = false /\ c <> 93%N /\ c <> 125%N)
    by (intros c t s -> H; exists c, t; split; [reflexivity | exact H]).
  destruct v as [| [] | l | s | items | m].
  1-3: eapply Hc; [reflexivity | repeat split; discriminate].
  - cbn [serialize]; destruct (num_finite l) eqn:E;
      [|eapply Hc; [reflexivity | repeat split; discriminate]].
    destruct (pnumber_head _ _ _ (Hnum l E)) as (c & t & Ht & Hct).
    eapply Hc; [exact Ht|]; split; [apply number_not_ws; exact Hct | lia].
  - eapply Hc; [reflexivity | repeat split; discriminate].
  - rewrite serialize_arr; destruct (map _ items);
      (eapply Hc; [reflexivity | repeat split; discriminate]).
  - rewrite serialize_obj; destruct (map _ (own_order m));
      (eapply Hc; [reflexivity | repeat split; discriminate]).
Qed.

Lemma size_le_length v : forall ind, (size v <= length (serialize ns num_finite ind v))%nat.
Proof.
  induction v as [| b | l | s | items IH | m IH] using json_ind'; intro ind.
  1,4: cbn; lia.
  - destruct b; cbn; lia.
  - cbn [size serialize]; destruct (num_finite l) eqn:E; [|cbn; lia].
    destruct (pnumber_head _ _ _ (Hnum l E)) as (c & t & -> & _); cbn; lia.
  - rewrite size_arr, serialize_arr.
    destruct items as [|x r]; [cbn; lia|].
    set (sep := [44; 10]%N ++ ind ++ gap).
    cbn [map]; rewrite <- (map_cons (serialize ns num_finite (ind ++ gap)) x r).
    pose proof (join_length sep (map (serialize ns num_finite (ind ++ gap)) (x :: r))) as J.
    rewrite map_map in J.
    assert (list_sum (map (fun y => S (size y)) (x :: r))
            <= list_sum (map (fun y => length (serialize ns num_finite (ind ++ gap) y) + length sep) (x :: r)))%nat.
    { apply list_sum_map_le; eapply Forall_impl; [|exact IH].
      intros y Hy; cbn beta; specialize (Hy (ind ++ gap)); unfold sep; rewrite length_app; cbn; lia. }
    unfold sep in *; rewrite !length_app in *; cbn [length map] in *.
    unfold list_sum in *; cbn [fold_right] in *; lia.
  - rewrite size_obj, serialize_obj.
    rewrite (Permutation_list_sum (Permutation_map _ (Permutation_sym (own_order_perm m)))).
    assert (IH' : Forall (fun e => forall ind, size (snd e) <= length (serialize ns num_finite ind (snd e)))%nat (own_order m))
      by (eapply Permutation_Forall; [symmetry; apply own_order_perm | exact IH]).
    destruct (own_order m) as [|e r]; [cbn; lia|].
    set (sep := [44; 10]%N ++ ind ++ gap).
    set (f := fun e0 : jsstr * json => (fst e0, serialize ns num_finite (ind ++ gap) (snd e0))).
    pose proof (join_length sep (map (fun e0 : jsstr * list N => quote (fst e0) ++ [58; 32]%N ++ snd e0)
                                      (map f (e :: r)))) as J.
    assert (list_sum (map (fun y => S (size (snd y))) (e :: r))
            <= list_sum (map (fun x => length x + length sep)
                             (map (fun e0 : jsstr * list N => quote (fst e0) ++ [58; 32]%N ++ snd e0)
                                  (map f (e :: r)))))%nat.
    { rewrite !map_map; apply list_sum_map_le; eapply Forall_impl; [|exact IH'].
      intros y Hy; cbn beta; specialize (Hy (ind ++ gap)); unfold sep, f, quote; cbn [fst snd].
      rewrite !length_app; cbn; rewrite !length_app; cbn; lia. }
    clearbody f.
    unfold sep in *; cbn [length map] in *; rewrite !length_app in *; cbn [length] in *.
    unfold list_sum in *; cbn [fold_right] in *; lia.
Qed.

Definition WS (w : jsstr) : Prop := Forall (fun c => is_json_ws c = true) w.

Lemma WS_gap ind : WS ind -> WS (ind ++ gap).
Proof. intro H; apply Forall_app; split; [exact H | repeat constructor]. Qed.

(** What the induction gives for a value [x]. *)
Definition reads_back (x : json) : Prop :=
  forall ind f rest, WS ind -> stop rest -> (size x <= f)%nat -> well_keyed x = true ->
  pvalue f (serialize ns num_finite ind x ++ rest) = Some (canon ns num_finite x, rest).

Lemma pelems_items ind items :
  WS ind -> Forall reads_back items -> forallb well_keyed items = true ->
  forall acc g w rest, items <> [] -> WS w ->
  (list_sum (map (fun x => S (size x)) items) <= g)%nat ->
  pelems g (w ++ join ([44; 10]%N ++ ind ++ gap) (map (serialize ns num_finite (ind ++ gap)) items)
              ++ 10%N :: ind ++ 93%N :: rest) acc
  = Some (JArr (acc ++ map (canon ns num_finite) items), rest).
Proof.
  intros Hind IH Hwk; induction IH as [|x r Hx Hr IHr]; intros acc g w rest Hne Hw Hg;
    [congruence|].
  cbn [forallb] in Hwk; apply andb_true_iff in Hwk as [Hwx Hwr].
  cbn [map list_sum fold_right] in Hg; unfold list_sum in Hg.
  destruct g as [|g]; [lia|].
  destruct r as [|y r].
  - cbn [map join pelems].
    rewrite pvalue_ws by exact Hw.
    rewrite Hx; [| apply WS_gap, Hind | cbn; auto | cbn in Hg; lia | exact Hwx].
    cbn [skip_ws is_json_ws]; rewrite skip_ws_app by exact Hind; cbn.
    reflexivity.
  - change (join ([44; 10]%N ++ ind ++ gap) (map (serialize ns num_finite (ind ++ gap)) (x :: y :: r)))
      with (serialize ns num_finite (ind ++ gap) x ++ ([44; 10]%N ++ ind ++ gap)
            ++ join ([44; 10]%N ++ ind ++ gap) (map (serialize ns num_finite (ind ++ gap)) (y :: r))).
    cbn [pelems]; rewrite pvalue_ws by exact Hw.
    rewrite <- !app_assoc; cbn [app].
    rewrite Hx; [| apply WS_gap, Hind | cbn; auto | lia | exact Hwx].
    cbn [skip_ws is_json_ws].
    specialize (IHr Hwr (acc ++ [canon ns num_finite x]) g (10%N :: ind ++ gap) rest
                  ltac:(discriminate) ltac:(constructor; [reflexivity | apply WS_gap, Hind])
                  ltac:(unfold list_sum in *; lia)).
    cbn [app] in IHr; rewrite <- (app_assoc ind gap) in IHr.
    rewrite IHr, <- app_assoc; reflexivity.
Qed.

Lemma pvalue_ws_cons f c s : is_json_ws c = true -> pvalue f (c :: s) = pvalue f s.
Proof. intro H; apply (pvalue_ws f [c]); repeat constructor; exact H. Qed.

Lemma define_own_fresh {A} (m : list (jsstr * A)) k v :
  ~ In k (map fst m) -> define_own m k v = m ++ [(k, v)].
Proof.
  induction m as [|[k' v'] r IH]; intro H; [reflexivity|]; cbn.
  rewrite jseqb_neq by (intro E; apply H; left; exact E).
  rewrite IH by (intro E; apply H; right; exact E); reflexivity.
Qed.

Lemma join_cons2 sep a b l : join sep (a :: b :: l) = a ++ sep ++ join sep (b :: l).
Proof. reflexivity. Qed.

Lemma pmembers_entries ind E :
  WS ind -> Forall (fun e => reads_back (snd e)) E ->
  forallb (fun e => well_keyed (snd e)) E = true -> NoDup (map fst E) ->
  forall acc g w rest, E <> [] -> WS w ->
  (forall k, In k (map fst E) -> ~ In k (map fst acc)) ->
  (list_sum (map (fun e => S (size (snd e))) E) <= g)%nat ->
  pmembers g (w ++ join ([44; 10]%N ++ ind ++ gap)
                   (map (fun e0 : jsstr * list N => quote (fst e0) ++ [58; 32]%N ++ snd e0)
                      (map (fun e0 => (fst e0, serialize ns num_finite (ind ++ gap) (snd e0))) E))
                ++ 10%N :: ind ++ 125%N :: rest) acc
  = Some (JObj (acc ++ map (fun e => (fst e, canon ns num_finite (snd e))) E), rest).
Proof.
  intros Hind IH Hwk Hnd; induction IH as [|[k x] r Hx Hr IHr];
    intros acc g w rest Hne Hw Hfresh Hg; [congruence|].
  cbn [forallb snd] in Hwk; apply andb_true_iff in Hwk as [Hwx Hwr].
  cbn [map fst] in Hnd; inversion Hnd as [|k0 l0 Hk Hnd']; subst k0 l0.
  cbn [map list_sum fold_right snd] in Hg; unfold list_sum in Hg.
  destruct g as [|g]; [lia|].
  assert (Hacc : ~ In k (map fst acc)) by (apply Hfresh; left; reflexivity).
  destruct r as [|[k' y] r].
  - cbn [map join pmembers fst snd].
    rewrite skip_ws_app by exact Hw; unfold quote.
    rewrite <- !app_assoc; cbn [app skip_ws is_json_ws].
    rewrite <- !app_assoc; cbn [app].
    rewrite pstring_quote_units; cbn [skip_ws is_json_ws].
    rewrite pvalue_ws_cons by reflexivity.
    rewrite Hx; [| apply WS_gap, Hind | cbn; auto | cbn in Hg |- *; lia | exact Hwx].
    cbn [skip_ws is_json_ws]; rewrite skip_ws_app by exact Hind; cbn [skip_ws is_json_ws].
    rewrite define_own_fresh by exact Hacc; reflexivity.
  - cbn [map]; rewrite join_cons2; cbn [pmembers fst snd].
    rewrite skip_ws_app by exact Hw; unfold quote at 1.
    rewrite <- !app_assoc; cbn [app skip_ws is_json_ws].
    rewrite <- !app_assoc; cbn [app].
    rewrite pstring_quote_units; cbn [skip_ws is_json_ws].
    rewrite pvalue_ws_cons by reflexivity.
    rewrite Hx; [| apply WS_gap, Hind | cbn; auto | cbn [snd]; lia | exact Hwx].
    cbn [skip_ws is_json_ws].
    rewrite define_own_fresh by exact Hacc.
    specialize (IHr Hwr Hnd' (acc ++ [(k, canon ns num_finite x)]) g (10%N :: ind ++ gap) rest
                  ltac:(discriminate) ltac:(constructor; [reflexivity | apply WS_gap, Hind])).
    cbn [map fst snd app] in IHr; rewrite <- (app_assoc ind gap) in IHr.
    transitivity (Some (JObj ((acc ++ [(k, canon ns num_finite x)])
                              ++ map (fun e => (fst e, canon ns num_finite (snd e))) ((k', y) :: r)),
                        rest));
      [apply IHr | rewrite <- app_assoc; reflexivity].
    + intros k2 Hk2; rewrite map_app, in_app_iff; intros [H2|[H2|[]]].
      * apply (Hfresh k2); [right; exact Hk2 | exact H2].
      * subst k2; apply Hk; exact Hk2.
    + cbn [map list_sum fold_right snd] in Hg |- *; unfold list_sum in *; lia.
Qed.

Lemma size_pos v : (1 <= size v)%nat.
Proof. destruct v; cbn; lia. Qed.

Lemma join_head sep a l : exists X, join sep (a :: l) = a ++ X.
Proof. destruct l as [|b l]; [exists []; symmetry; apply app_nil_r | eexists; reflexivity]. Qed.

Lemma serialize_reads_back v : reads_back v.
Proof.
  induction v as [| b | l | s | items IH | m IH] using json_ind';
    intros ind f rest Hind Hr Hf Hwk; (destruct f as [|f];
     [match type of Hf with (size ?v <= _)%nat => pose proof (size_pos v); lia end|]).
  - reflexivity.
  - destruct b; reflexivity.
  - cbn [serialize canon]; destruct (num_finite l) eqn:E; [|reflexivity].
    apply pvalue_number; [apply Hnum; exact E | exact Hr].
  - cbn [serialize canon]; unfold quote; cbn [app]; rewrite <- app_assoc;
      cbn [app pvalue skip_ws is_json_ws].
    rewrite pstring_quote_units; reflexivity.
  - rewrite serialize_arr, canon_arr.
    destruct items as [|x r]; [reflexivity|].
    rewrite well_keyed_arr in Hwk; rewrite size_arr in Hf.
    destruct (map (serialize ns num_finite (ind ++ gap)) (x :: r)) as [|p ps] eqn:Em;
      [discriminate|]; rewrite <- Em.
    pose proof (pelems_items ind (x :: r) Hind IH Hwk [] f (10%N :: ind ++ gap) rest
                  ltac:(discriminate) ltac:(constructor; [reflexivity | apply WS_gap, Hind])
                  ltac:(lia)) as P.
    rewrite <- !app_assoc; cbn [app]; cbn [app] in P; rewrite <- (app_assoc ind gap) in P.
    rewrite pvalue_arr; [exact P|].
    destruct (serialize_head (ind ++ gap) x) as (c & t & Hx & Hc1 & Hc2 & _).
    destruct (join_head (44%N :: 10%N :: ind ++ gap) (serialize ns num_finite (ind ++ gap) x)
                (map (serialize ns num_finite (ind ++ gap)) r)) as [X HX].
    cbn [map]; rewrite HX, Hx; cbn [skip_ws is_json_ws].
    rewrite app_assoc, skip_ws_app by (apply WS_gap, Hind).
    cbn [app]; rewrite skip_ws_nonws by exact Hc1; cbn; congruence.
  - rewrite serialize_obj, canon_obj.
    rewrite well_keyed_obj in Hwk; apply andb_true_iff in Hwk as [Hkd Hwk].
    rewrite size_obj in Hf.
    rewrite (Permutation_list_sum (Permutation_map _ (Permutation_sym (own_order_perm m)))) in Hf.
    apply keys_distinct_NoDup in Hkd.
    assert (Hnd : NoDup (map fst (own_order m)))
      by (eapply Permutation_NoDup; [symmetry; apply Permutation_map, own_order_perm | exact Hkd]).
    assert (IH' : Forall (fun e => reads_back (snd e)) (own_order m))
      by (eapply Permutation_Forall; [symmetry; apply own_order_perm | exact IH]).
    assert (Hwk' : forallb (fun e => well_keyed (snd e)) (own_order m) = true).
    { rewrite forallb_forall in Hwk |- *; intros e He; apply Hwk.
      eapply Permutation_in; [apply own_order_perm | exact He]. }
    destruct (own_order m) as [|e E]; [reflexivity|].
    pose proof (pmembers_entries ind (e :: E) Hind IH' Hwk' Hnd [] f (10%N :: ind ++ gap) rest
                  ltac:(discriminate) ltac:(constructor; [reflexivity | apply WS_gap, Hind])
                  ltac:(intros k _ []) ltac:(lia)) as P.
    cbn [map]; cbn [map] in P.
    rewrite <- !app_assoc; cbn [app]; cbn [app] in P; rewrite <- (app_assoc ind gap) in P.
    rewrite pvalue_obj; [exact P|].
    cbn [skip_ws is_json_ws]; rewrite (app_assoc ind gap), skip_ws_app by (apply WS_gap, Hind).
    destruct E; cbn [map join]; unfold quote; cbn [app skip_ws is_json_ws hd_error]; congruence.
Qed.

(** The round trip. *)
Lemma parse_stringify v :
  well_keyed v = true ->
  JSON_parse (JSON_stringify ns num_finite v) = Some (canon ns num_finite v).
Proof.
  intro Hwk; unfold JSON_parse, JSON_stringify.
  pose proof (size_le_length v []) as Hs.
  pose proof (serialize_reads_back v [] (2 * length (serialize ns num_finite [] v) + 2) []
                ltac:(constructor) I ltac:(lia) Hwk) as P.
  rewrite app_nil_r in P; rewrite P; reflexivity.
Qed.

End Roundtrip.

Lemma forallb_define_own (P : json -> bool) (m : list (jsstr * json)) k v :
  forallb (fun e => P (snd e)) m = true -> P v = true ->
  forallb (fun e => P (snd e)) (define_own m k v) = true.
Proof.
  induction m as [|[k' v'] r IH]; intros Hm Hv; cbn in *; [rewrite Hv; reflexivity|].
  apply andb_true_iff in Hm as [H1 H2].
  destruct (jseqb k' k); cbn; rewrite ?Hv, ?H1, ?H2, ?IH by assumption; reflexivity.
Qed.

Lemma well_keyed_define_own m k v :
  well_keyed (JObj m) = true -> well_keyed v = true -> well_keyed (JObj (define_own m k v)) = true.
Proof.
  rewrite !well_keyed_obj, !andb_true_iff, !keys_distinct_NoDup; intros [H1 H2] Hv; split.
  - apply define_own_nodup; exact H1.
  - apply forallb_define_own; assumption.
Qed.

Ltac crush_match :=
  repeat match goal with
         | H : None = Some _ |- _ => discriminate H
         | H : Some _ = Some _ |- _ => injection H; clear H; intros; subst
         | H : context [match ?x with _ => _ end] |- _ => destruct x eqn:?
         end.

Lemma parse_well_keyed f :
  (forall s v r, pvalue f s = Some (v, r) -> well_keyed v = true)
  /\ (forall s acc v r, forallb well_keyed acc = true ->
        pelems f s acc = Some (v, r) -> well_keyed v = true)
  /\ (forall s acc v r, well_keyed (JObj acc) = true ->
        pmembers f s acc = Some (v, r) -> well_keyed v = true).
Proof.
  induction f as [|f (IHv & IHe & IHm)]; [repeat split; intros; discriminate|].
  split; [|split].
  - intros s v r H; cbn [pvalue] in H.
    crush_match; try reflexivity;
      first [eapply (IHm _ []); [reflexivity | eassumption]
            | eapply (IHe _ []); [reflexivity | eassumption]].
  - intros s acc v r Hacc H; cbn [pelems] in H.
    destruct (pvalue f s) as [[x r1]|] eqn:Hx; [|discriminate].
    assert (Hacc' : forallb well_keyed (acc ++ [x]) = true)
      by (rewrite forallb_app, Hacc; cbn [forallb]; rewrite (IHv _ _ _ Hx); reflexivity).
    crush_match; eauto; rewrite well_keyed_arr; exact Hacc'.
  - intros s acc v r Hacc H; cbn [pmembers] in H.
    crush_match; eauto using well_keyed_define_own.
Qed.

Lemma json_parse_well_keyed text v : JSON_parse text = Some v -> well_keyed v = true.
Proof.
  unfold JSON_parse; destruct (pvalue _ text) as [[v' r]|] eqn:E; [|discriminate].
  destruct (skip_ws r); [|discriminate]; intro H; injection H as <-.
  exact (proj1 (parse_well_keyed _) _ _ _ E).
Qed.

(** The number semantics of the concrete runs: a lexeme counts as finite
    when it is a whole JSON number, and prints as itself. *)
Definition whole_number (l : jsstr) : bool :=
  match pnumber l with Some (y, []) => jseqb y l | _ => false end.

Lemma whole_number_prints l :
  whole_number l = true -> pnumber (num_to_string Examples.lexeme_numbers l)
                           = Some (num_to_string Examples.lexeme_numbers l, []).
Proof.
  unfold whole_number; cbn [num_to_string Examples.lexeme_numbers].
  destruct (pnumber l) as [[y [|c u]]|]; try discriminate.
  intro H; apply jseqb_eq in H; subst; reflexivity.
Qed.
End StringifyFacts.

(* ================================================================== *)
(** * Further properties of the scripts *)

Module Extras.
Import JsString Json Normalizer JsObject Batch Context Examples.
Import ObjectFacts AccumFacts LoopFacts RunFacts TextFacts.

Lemma analyze_loop_call_events {P : Type} (fs : fs_model) (mk : jsstr -> jsstr -> P)
  (gen : nat -> P -> reply) (n : nat) (files : list jsstr) : forall st,
  filter is_call (snd (analyze_loop fs mk gen n st files)) = map ECall (filter (readable fs) files).
Proof.
  induction files as [|p r IH]; intro st; [reflexivity|].
  cbn [analyze_loop].
  assert (E : filter is_call (snd (analyze_file fs mk gen n st p))
              = if readable fs p then [ECall p] else []).
  { unfold analyze_file, readable.
    destruct (fs_exists fs p); cbn [negb andb]; [|reflexivity].
    destruct (fs_read fs p) as [code|]; [|reflexivity].
    destruct (gen (calls st) (mk p code)) as [raw|msg]; [|reflexivity].
    destruct (normalize raw); [|reflexivity]; cbn [snd filter is_call].
    destruct (1 <? n)%nat; reflexivity. }
  destruct (analyze_file fs mk gen n st p) as [s1 e1]; cbn [snd] in E.
  specialize (IH s1).
  destruct (analyze_loop fs mk gen n s1 r) as [s2 e2]; cbn [snd] in *.
  rewrite filter_app, E, IH; cbn [filter]; destruct (readable fs p); reflexivity.
Qed.

(** The model calls of a run are exactly one per input identifier that
    exists and can be read, in input order (a repeated identifier is
    called again), and the call counter ends at their number. *)
Theorem calls_are_readable_paths {P : Type} (fs : fs_model) (mk : jsstr -> jsstr -> P)
  (gen : nat -> P -> reply) (FILES : list jsstr) :
  let r := analyze_loop fs mk gen (length FILES) init_state FILES in
  filter is_call (snd r) = map ECall (filter (readable fs) FILES)
  /\ calls (fst r) = length (filter (readable fs) FILES).
Proof.
  cbn zeta; split; [apply analyze_loop_call_events|].
  apply (analyze_loop_calls fs mk (length FILES) gen FILES init_state).
Qed.



Section Answers.
Context {P : Type} (fs : fs_model) (mk : jsstr -> jsstr -> P) (gen : nat -> P -> reply).





End Answers.


(** With a model that only looks at the component code, the
    context-aware script writes the same artifact and goes through the
    same calls, failures and sleeps as the plain one; it only adds the
    context warning when project context could not be read. *)
Theorem context_aware_same_as_plain (ns : number_semantics) (fs : fs_model)
  (gen1 : nat -> jsstr -> reply) (gen2 : nat -> prompt_v2 -> reply) (FILES : list jsstr) :
  (forall i pr, gen2 i pr = gen1 i (pr_code pr)) ->
  main_v2 ns fs gen2 FILES
  = match main_v1 fs gen1 FILES with
    | Finished out tr =>
        Finished out ((if snd (build_context ns fs) then [EContextWarning] else []) ++ tr)
    | other => other
    end.
Proof.
  intro Hg; unfold main_v2, main_v1.
  destruct (length FILES =? 0)%nat; [reflexivity|].
  destruct (build_context ns fs) as [ctx w]; cbn [snd].
  rewrite (analyze_loop_same_answers fs
             (fun filePath code =>
                {| pr_context := ctx; pr_filename := basename filePath;
                   pr_is_ts := ends_with (js ".tsx") filePath; pr_code := code |})
             (fun _ code => code) gen2 gen1 (length FILES) FILES
             (fun i p code => Hg i _) init_state).
  destruct (analyze_loop fs (fun _ code => code) gen1 (length FILES) init_state FILES).
  reflexivity.
Qed.

Lemma context_aware_same_as_plain_witness :
  (forall i pr, (fun i pr => answers_empty i (pr_code pr)) i pr
                = (answers_empty : nat -> jsstr -> reply) i (pr_code pr))
  /\ main_v2 lexeme_numbers all_present (fun i pr => answers_empty i (pr_code pr))
       [js "src/App.jsx"; js "src/Nav.tsx"]
     = match main_v1 all_present answers_empty [js "src/App.jsx"; js "src/Nav.tsx"] with
       | Finished out tr =>
           Finished out ((if snd (build_context lexeme_numbers all_present)
                          then [EContextWarning] else []) ++ tr)
       | other => other
       end.
Proof.
  split; [intros; reflexivity|].
  apply (context_aware_same_as_plain lexeme_numbers all_present answers_empty
           (fun i pr => answers_empty i (pr_code pr))).
  intros; reflexivity.
Defined.

(** When package.json exists but cannot be read, is not valid JSON, or
    holds [null], the project context stays the placeholder and the
    warning is printed; README.md is then not used, even if present. *)
Theorem package_failure_placeholder (ns : number_semantics) (fs : fs_model) :
  fs_exists fs package_json = true ->
  match fs_read fs package_json with
  | None => True
  | Some txt => JSON_parse txt = None \/ JSON_parse txt = Some JNull
  end ->
  build_context ns fs = (placeholder, true).
Proof.
  intros He Hr; unfold build_context, read_package; rewrite He.
  destruct (fs_read fs package_json) as [txt|]; [|reflexivity].
  destruct Hr as [H|H]; unfold bind, lift, ret, throw; cbn - [JSON_parse]; rewrite H; reflexivity.
Qed.

(** A package.json that is not JSON, next to a README. *)
Definition broken_package : fs_model :=
  {| fs_exists := fun p => jseqb p package_json || jseqb p readme_md;
     fs_read := fun p => if jseqb p package_json then Some (js "{ name: 'shop' }")
                         else if jseqb p readme_md then Some (js "# Shop") else None |}.

Lemma package_failure_placeholder_witness :
  fs_exists broken_package package_json = true
  /\ JSON_parse (js "{ name: 'shop' }") = None
  /\ fs_exists broken_package readme_md = true
  /\ build_context lexeme_numbers broken_package = (placeholder, true).
Proof.
  split; [reflexivity | split; [vm_compute; reflexivity | split; [reflexivity|]]].
  apply package_failure_placeholder; [reflexivity|].
  left; vm_compute; reflexivity.
Defined.

(** With a package.json object whose ["name"], ["description"] and
    ["dependencies"] are strings, strings and an object, or absent, and no
    README.md, the context names the project (["Unnamed"] when the name is
    absent or empty), quotes the description (empty when absent), and
    lists the dependency names in JavaScript's key order, separated by
    [", "]. *)
Theorem package_summary (ns : number_semantics) (fs : fs_model) (txt : jsstr)
  (m : list (jsstr * json)) (name descr : option jsstr) (deps : option (list (jsstr * json))) :
  fs_exists fs package_json = true -> fs_read fs package_json = Some txt ->
  JSON_parse txt = Some (JObj m) ->
  lookup (js "name") m = option_map JStr name ->
  lookup (js "description") m = option_map JStr descr ->
  lookup (js "dependencies") m = option_map JObj deps ->
  fs_exists fs readme_md = false ->
  build_context ns fs =
    (js "Project Name: " ++ dq
       ++ match name with Some ((_ :: _) as n) => n | _ => js "Unnamed" end ++ dq ++ nl
     ++ js "Description: " ++ dq ++ match descr with Some d => d | None => [] end ++ dq
     ++ nl ++ js "Key Libraries: "
     ++ join (js ", ") (map fst (own_order match deps with Some d => d | None => [] end)),
     false).
Proof.
  intros He Hr Hp Hn Hd Hdeps Hrm.
  unfold build_context, read_package, read_readme; rewrite He, Hr, Hrm.
  unfold bind, lift, ret, throw, get, put; cbn - [JSON_parse lookup js].
  rewrite Hp; cbn - [lookup js]; rewrite Hn, Hd, Hdeps.
  destruct name as [[|c n]|], descr as [[|e d]|], deps as [dl|];
    cbn - [js]; unfold dq, nl;
    repeat (rewrite <- app_assoc || rewrite <- app_comm_cons); reflexivity.
Qed.

(** A package.json with a name, an empty description and two
    dependencies, the second one an array index. *)
Definition shop_package : jsstr :=
  jq "{'name':'shop','description':'','dependencies':{'react':'^18','7':'x'}}".

Definition package_only : fs_model :=
  {| fs_exists := fun p => jseqb p package_json;
     fs_read := fun p => if jseqb p package_json then Some shop_package else None |}.

Lemma package_summary_witness :
  JSON_parse shop_package
  = Some (JObj [(js "name", JStr (js "shop")); (js "description", JStr []);
                (js "dependencies", JObj [(js "react", JStr (js "^18")); (js "7", JStr (js "x"))])])
  /\ build_context lexeme_numbers package_only =
     (js "Project Name: " ++ dq ++ js "shop" ++ dq ++ nl
      ++ js "Description: " ++ dq ++ [] ++ dq
      ++ nl ++ js "Key Libraries: "
      ++ join (js ", ") (map fst (own_order [(js "react", JStr (js "^18")); (js "7", JStr (js "x"))])),
      false).
Proof.
  assert (H : JSON_parse shop_package
    = Some (JObj [(js "name", JStr (js "shop")); (js "description", JStr []);
                  (js "dependencies", JObj [(js "react", JStr (js "^18")); (js "7", JStr (js "x"))])]))
    by (vm_compute; reflexivity).
  split; [exact H|].
  apply (package_summary lexeme_numbers package_only shop_package
           [(js "name", JStr (js "shop")); (js "description", JStr []);
            (js "dependencies", JObj [(js "react", JStr (js "^18")); (js "7", JStr (js "x"))])]
           (Some (js "shop")) (Some []) (Some [(js "react", JStr (js "^18")); (js "7", JStr (js "x"))]));
    [reflexivity | reflexivity | exact H | reflexivity | reflexivity | reflexivity | reflexivity].
Defined.

(* The artifact, written with [JSON.stringify(masterAnalysis, null, 2)],
   parses back into its entries. *)
Import StringifyFacts Stringify.

(** [JSON.stringify(v, null, 2)] followed by [JSON.parse] gives back [v] up
    to the normal form [canon] (numbers printed and re-read, non-finite
    numbers as [null], object keys in property order), for every value whose
    objects have pairwise distinct keys, provided a finite number prints as a
    complete JSON number. *)
Theorem stringify_round_trip (ns : number_semantics) (num_finite : jsstr -> bool) (v : json) :
  (forall l, num_finite l = true ->
             pnumber (num_to_string ns l) = Some (num_to_string ns l, [])) ->
  well_keyed v = true ->
  JSON_parse (JSON_stringify ns num_finite v) = Some (canon ns num_finite v).
Proof. intros Hnum Hv; exact (parse_stringify ns num_finite Hnum v Hv). Qed.

(** A value with a surrogate pair, a lone surrogate, a quote, a backslash,
    control characters, nested containers, an index-like key and the empty key. *)
Definition tricky_value : json :=
  JObj [(js "b", JStr [55357; 56832; 10; 55296; 34; 92; 1; 9]%N);
        (js "7", JArr [JNum (js "12"); JBool true; JObj []; JArr []]);
        ([], JNull)].

Lemma stringify_round_trip_witness :
  (forall l, whole_number l = true ->
             pnumber (num_to_string lexeme_numbers l) = Some (num_to_string lexeme_numbers l, []))
  /\ well_keyed tricky_value = true
  /\ JSON_parse (JSON_stringify lexeme_numbers whole_number tricky_value)
     = Some (canon lexeme_numbers whole_number tricky_value).
Proof.
  split; [exact whole_number_prints|]; split; [vm_compute; reflexivity|].
  apply (stringify_round_trip lexeme_numbers whole_number tricky_value whole_number_prints).
  vm_compute; reflexivity.
Defined.

Lemma stored_well_keyed {P : Type} (fs : fs_model) (mk : jsstr -> jsstr -> P)
  (gen : nat -> P -> reply) (FILES : list jsstr) :
  let st := fst (analyze_loop fs mk gen (length FILES) init_state FILES) in
  well_keyed (JObj (own (master st))) = true.
Proof.
  intros st; rewrite well_keyed_obj, andb_true_iff, keys_distinct_NoDup; split.
  - apply analyze_loop_nodup; constructor.
  - apply forallb_forall; intros [k v] H; cbn [snd].
    destruct (analyze_loop_stored fs mk (length FILES) gen FILES init_state
                ltac:(intros k' v' []) k v H) as [->|(i & x & raw & _ & _ & Hn)];
      [reflexivity|].
    unfold normalize in Hn; exact (json_parse_well_keyed _ _ Hn).
Qed.

(** The written artifact reads back: parsing the text written to
    [analysis.json] gives one member per stored key, in property order, whose
    value is the stored value in the normal form [canon]. *)
Theorem artifact_reads_back {P : Type} (ns : number_semantics) (num_finite : jsstr -> bool)
  (fs : fs_model) (mk : jsstr -> jsstr -> P) (gen : nat -> P -> reply) (FILES : list jsstr) :
  (forall l, num_finite l = true ->
             pnumber (num_to_string ns l) = Some (num_to_string ns l, [])) ->
  let st := fst (analyze_loop fs mk gen (length FILES) init_state FILES) in
  JSON_parse (artifact_text ns num_finite (master st))
  = Some (JObj (map (fun e => (fst e, canon ns num_finite (snd e))) (own_entries (master st)))).
Proof.
  intros Hnum st; unfold artifact_text.
  rewrite (parse_stringify ns num_finite Hnum); [rewrite canon_obj; reflexivity|].
  apply stored_well_keyed.
Qed.

(** A model answering a fenced object with a repeated key, nested objects,
    an index-like key and an array holding numbers and an escape. *)
Definition answers_numbers {P : Type} : nat -> P -> reply :=
  fun _ _ => Reply (jq "```json
{'b': 'first', '10': {'x': null}, 'b': [15, -7, true, 'tab\t']}
```").

Lemma artifact_reads_back_witness :
  (forall l, whole_number l = true ->
             pnumber (num_to_string lexeme_numbers l) = Some (num_to_string lexeme_numbers l, []))
  /\ JSON_parse (artifact_text lexeme_numbers whole_number
                   (master (fst (analyze_loop all_present (fun _ code => code) answers_numbers
                                   2 init_state [js "src/App.jsx"; js "src/Nav.jsx"]))))
     = Some (JObj (map (fun e => (fst e, canon lexeme_numbers whole_number (snd e)))
                     (own_entries (master (fst (analyze_loop all_present (fun _ code => code)
                                                  answers_numbers 2 init_state
                                                  [js "src/App.jsx"; js "src/Nav.jsx"])))))).
Proof.
  split; [exact whole_number_prints|].
  exact (artifact_reads_back lexeme_numbers whole_number all_present (fun _ code => code)
           answers_numbers [js "src/App.jsx"; js "src/Nav.jsx"] whole_number_prints).
Defined.

End Extras.
